(** * Approval voting and sequential proportional approval voting

    A shallow embedding of [approval_election] from [approval.py], together
    with the data model it works on ([Candidate], [Ballot], [Round],
    [Result]) and the properties of the election loop.

    Modelling decisions, all taken from the source:

    - A [Candidate] is a dataclass over one string; its [__eq__] compares
      names and its [__hash__] hashes the name, so a candidate is its name.
    - A [Ballot] is a mutable object.  The election writes [ballot.weight]
      in place, so ballots live in a heap and the list handed to
      [approval_election] is a list of references into it.  The lists of
      approved candidates and the candidates themselves are never written
      to, so they are plain values.
    - Python's numbers ([int] and [float] weights, [1 / (1 + m)], the
      [Counter] values) are modelled twice.  The first model computes
      with exact rationals [Qc]: it serves for what does not depend on
      rounding (which calls return, what they write, how many winners
      and rounds there are, the first round on fresh ballots, signs and
      bounds that rounding keeps).  The second, [Py], is the same
      function with the arithmetic left open ([Py.Numbers]: [+] and
      [sum], which may raise [OverflowError], [<] and [1 / n]); what is
      proved of it holds of the values Python computes, and it serves
      for the tie-break, the weights and the sums.
    - A [Counter] is a [dict]: an association list without repeated keys,
      kept in insertion order, because [most_common] sorts stably and the
      order therefore decides ties.
    - Of [Round.__repr__] the table is modelled, not the text [tabulate]
      makes of it; of [parse_ballots] the loop over the rows, not the
      file and the [csv] reader that yield them.  [int] and [str.strip]
      are parameters ([Builtins]). *)

From Stdlib Require Import QArith Qcanon.
From Equations Require Import Equations.
From stdpp Require Import numbers strings gmap list sorting.

#[local] Set Warnings "-clear-no-such-hyp".

(** ** Data model *)

Record Candidate := mkCandidate { name : string }.

#[global] Instance Candidate_eq_dec : EqDecision Candidate.
Proof. solve_decision. Defined.

Record Ballot := mkBallot {
  approved_candidates : list Candidate;
  weight : Qc
}.

#[global] Instance Ballot_inhabited : Inhabited Ballot :=
  populate (mkBallot [] 0%Qc).

(** [Counter[Candidate]]: keys in insertion order. *)
Abbreviation Counter := (list (Candidate * Qc)).

Record Round := mkRound {
  winner : Candidate;
  scores : Counter;
  weighted_votes : Qc
}.

(** References to [Ballot] objects, and the heap holding the objects. *)
Abbreviation loc := positive.
Abbreviation heap := (gmap loc Ballot).

Record Result := mkResult {
  winners : list Candidate;
  rounds : list Round;
  ballots : list loc
}.

(** A raised Python exception: its class and its message. *)
Record exn := mkExn { exn_class : string; exn_msg : string }.

(** What [(winner, _), *_ = []] raises. *)
Definition unpack_error : exn :=
  mkExn "ValueError" "not enough values to unpack (expected at least 1, got 0)".

(** ** [collections.Counter] *)

(** [scores[c]]: a missing key reads as [0] and is not inserted. *)
Fixpoint counter_get (s : Counter) (c : Candidate) : Qc :=
  match s with
  | [] => 0%Qc
  | (c', v) :: s' => if decide (c' = c) then v else counter_get s' c
  end.

(** [scores[c] = v]: an existing key keeps its position, a new key goes
    to the end. *)
Fixpoint counter_set (s : Counter) (c : Candidate) (v : Qc) : Counter :=
  match s with
  | [] => [(c, v)]
  | (c', v') :: s' =>
      if decide (c' = c) then (c', v) :: s' else (c', v') :: counter_set s' c v
  end.

(** [scores[c] += w]. *)
Definition counter_add (s : Counter) (c : Candidate) (w : Qc) : Counter :=
  counter_set s c (counter_get s c + w)%Qc.

(** [most_common()] is [sorted(items, key=itemgetter(1), reverse=True)]:
    a stable sort by descending value, comparing with [<] only.  An item
    is placed in front of the first item of the sorted tail whose value is
    not larger than its own. *)
Fixpoint insert_desc (x : Candidate * Qc) (l : Counter) : Counter :=
  match l with
  | [] => [x]
  | y :: l' => if decide (x.2 < y.2)%Qc then y :: insert_desc x l' else x :: l
  end.

Definition most_common (s : Counter) : Counter := foldr insert_desc [] s.

(** ** The three passes of one round *)

(** The inner loop of the scoring pass, for one ballot. *)
Definition score_ballot (winners : list Candidate) (b : Ballot)
    (scores : Counter) : Counter :=
  foldl (λ scores candidate,
           if decide (candidate ∈ winners) then scores
           else counter_add scores candidate (weight b))
        scores (approved_candidates b).

(** The scoring pass: [for ballot in ballots: for candidate in ...]. *)
Definition score_ballots (h : heap) (ballots : list loc)
    (winners : list Candidate) : Counter :=
  foldl (λ scores l, score_ballot winners (h !!! l) scores) [] ballots.

(** [sum(b.weight for b in ballots)]. *)
Definition sum_weights (h : heap) (ballots : list loc) : Qc :=
  foldl (λ acc l, (acc + weight (h !!! l))%Qc) 0%Qc ballots.

(** [sum(1 for c in ballot.approved_candidates if c in winners)]. *)
Definition approved_winners (winners : list Candidate) (b : Ballot) : nat :=
  length (filter (λ c, c ∈ winners) (approved_candidates b)).

Definition Qc_of_nat (n : nat) : Qc := Qc_of_Z (Z.of_nat n).

(** [1 / (1 + m)]. *)
Definition new_weight (m : nat) : Qc := (1 / Qc_of_nat (1 + m))%Qc.

(** [ballot.weight = w]. *)
Definition set_weight (w : Qc) (b : Ballot) : Ballot :=
  mkBallot (approved_candidates b) w.

(** The reweighting pass. *)
Definition reweight_ballots (h : heap) (ballots : list loc)
    (winners : list Candidate) : heap :=
  foldl (λ h l,
           let m := approved_winners winners (h !!! l) in
           alter (set_weight (new_weight m)) l h)
        h ballots.

(** ** The election loop *)

(** The variables of the loop: the heap and the two lists being built. *)
Record state := mkState {
  st_heap : heap;
  st_winners : list Candidate;
  st_rounds : list Round
}.

(** The body of the [while] loop. *)
Definition election_round (ballots : list loc) (st : state) : exn + state :=
  let scores := score_ballots (st_heap st) ballots (st_winners st) in
  match most_common scores with
  | [] => inl unpack_error
  | (winner, _) :: _ =>
      let winners := st_winners st ++ [winner] in
      let rounds :=
        st_rounds st ++
          [mkRound winner scores (sum_weights (st_heap st) ballots)] in
      inr (mkState (reweight_ballots (st_heap st) ballots winners)
                   winners rounds)
  end.

(** Case analysis on a value that keeps the equation with it. *)
Definition inspect {A : Type} (x : A) : {y : A | x = y} := exist _ x eq_refl.

(** [while len(winners) < seats: ...], then [return Result(...)].  The
    heap is returned as well: it is what the caller's ballots look like
    afterwards, also when an exception ends the call. *)
Equations? election_loop (ballots : list loc) (seats : Z) (st : state) :
    heap * (exn + Result)
    by wf (Z.to_nat (seats - Z.of_nat (length (st_winners st)))) lt :=
  election_loop ballots seats st
    with decide (Z.of_nat (length (st_winners st)) < seats)%Z => {
    | right _ =>
        (st_heap st, inr (mkResult (st_winners st) (st_rounds st) ballots))
    | left _ with inspect (election_round ballots st) => {
        | exist _ (inl e) _ => (st_heap st, inl e)
        | exist _ (inr st') Hround => election_loop ballots seats st' } }.
Proof.
  unfold election_round in Hround.
  destruct (most_common _) as [|[w ?] ?]; [done|].
  injection Hround as <-; simpl. rewrite length_app; simpl; lia.
Qed.

(** [rounds = []] and [winners = []] on entry. *)
Definition init_state (h : heap) : state := mkState h [] [].

Definition approval_election (h : heap) (ballots : list loc) (seats : Z) :
    heap * (exn + Result) :=
  election_loop ballots seats (init_state h).

(** The loop variables after [k] rounds, if none of them raises. *)
Fixpoint run_rounds (k : nat) (ballots : list loc) (st : state) : exn + state :=
  match k with
  | O => inr st
  | S k' =>
      match election_round ballots st with
      | inl e => inl e
      | inr st' => run_rounds k' ballots st'
      end
  end.

(** [after_round h ballots seats k st]: the call
    [approval_election(ballots, seats)], started in heap [h], completes
    its [k]-th round, and [st] holds the loop variables at that point
    ([k = 0]: before the first round). *)
Definition after_round (h : heap) (ballots : list loc) (seats : Z)
    (k : nat) (st : state) : Prop :=
  k ≤ Z.to_nat seats ∧ run_rounds k ballots (init_state h) = inr st.

(** ** Vocabulary for the statements *)

(** The ballot objects a list of references stands for, in order. *)
Definition deref (h : heap) (ballots : list loc) : list Ballot :=
  (λ l, h !!! l) <$> ballots.

(** Every element of the list refers to an object of the heap, as every
    element of a Python list does. *)
Definition refs_live (h : heap) (ballots : list loc) : Prop :=
  ∀ l, l ∈ ballots → is_Some (h !! l).

(** Every ballot of the list still has its initial weight. *)
Definition fresh (h : heap) (ballots : list loc) : Prop :=
  ∀ l, l ∈ ballots → weight (h !!! l) = 1%Qc.

(** What the reweighting pass makes of one ballot. *)
Definition reweight_ballot (winners : list Candidate) (b : Ballot) : Ballot :=
  set_weight (new_weight (approved_winners winners b)) b.

(** The approval entries of a list of ballots, in the order the scoring
    pass meets them, each with the weight of its ballot. *)
Definition approvals (bs : list Ballot) : list (Candidate * Qc) :=
  b ← bs; (λ c, (c, weight b)) <$> approved_candidates b.

(** The scoring pass over a flat list of entries. *)
Definition tally (ws : list Candidate) (s : Counter)
    (es : list (Candidate * Qc)) : Counter :=
  foldl (λ s e, if decide (e.1 ∈ ws) then s else counter_add s e.1 e.2) s es.

(** First-seen order: the distinct elements of a list, each at the place
    of its first occurrence. *)
Definition see (seen : list Candidate) (c : Candidate) : list Candidate :=
  if decide (c ∈ seen) then seen else seen ++ [c].

Definition first_seen (cs : list Candidate) : list Candidate :=
  foldl see [] cs.

(** The sum of the weights of the entries for candidate [c]. *)
Definition entry_sum (c : Candidate) (es : list (Candidate * Qc)) : Qc :=
  foldr (λ e acc, if decide (e.1 = c) then (e.2 + acc)%Qc else acc) 0%Qc es.

(** The sum of the weights of a list of ballots. *)
Definition total_weight (bs : list Ballot) : Qc :=
  foldr (λ b acc, (weight b + acc)%Qc) 0%Qc bs.

(** The distinct candidates approved on the listed ballots, in
    first-seen order. *)
Definition approved_distinct (h : heap) (ballots : list loc) : list Candidate :=
  first_seen ((approvals (deref h ballots)).*1).

(** Two sets of loop variables that look the same through their lists
    of references. *)
Definition same_view (bs1 bs2 : list loc) (st1 st2 : state) : Prop :=
  st_winners st1 = st_winners st2 ∧
  st_rounds st1 = st_rounds st2 ∧
  deref (st_heap st1) bs1 = deref (st_heap st2) bs2.

(** Two outcomes of [approval_election] that cannot be told apart: the
    same exception or the same winners and rounds, and the same ballots
    behind the two lists afterwards. *)
Definition same_outcome (bs1 bs2 : list loc)
    (out1 out2 : heap * (exn + Result)) : Prop :=
  match out1.2, out2.2 with
  | inr r1, inr r2 =>
      winners r1 = winners r2 ∧
      rounds r1 = rounds r2 ∧
      deref out1.1 (ballots r1) = deref out2.1 (ballots r2)
  | inl e1, inl e2 => e1 = e2 ∧ deref out1.1 bs1 = deref out2.1 bs2
  | _, _ => False
  end.

(** ** Plain approval voting, as the documentation describes it *)

(** The raw approval count of [c]: the number of ballots approving it. *)
Definition approval_count (bs : list Ballot) (c : Candidate) : nat :=
  length (filter (λ b, c ∈ approved_candidates b) bs).

(** The number of approval entries for [c]: a ballot that lists [c]
    several times counts that often. *)
Definition approval_entries (bs : list Ballot) (c : Candidate) : nat :=
  length (filter (λ c', c' = c) (bs ≫= approved_candidates)).

(** The first element of [cs] at which [f] is largest. *)
Fixpoint first_max (f : Candidate → nat) (cs : list Candidate) :
    option Candidate :=
  match cs with
  | [] => None
  | c :: cs' =>
      match first_max f cs' with
      | Some c' => if decide (f c < f c') then Some c' else Some c
      | None => Some c
      end
  end.

(** The candidate with the maximum raw approval count, ties broken by
    first-seen order in ballot iteration. *)
Definition max_approval_winner (bs : list Ballot) : option Candidate :=
  first_max (approval_count bs) (first_seen (bs ≫= approved_candidates)).

(** ** Running the code on the examples of the documentation *)

Definition A := mkCandidate "A".
Definition B := mkCandidate "B".
Definition C := mkCandidate "C".

(** A heap with one fresh ballot (weight 1) per approval list, and the
    list of references to them, in order. *)
Fixpoint alloc_from (l : loc) (approvals : list (list Candidate)) :
    heap * list loc :=
  match approvals with
  | [] => (∅, [])
  | a :: rest =>
      let rest' := alloc_from (Pos.succ l) rest in
      (<[l := mkBallot a 1%Qc]> (rest'.1), l :: rest'.2)
  end.

Definition fresh_ballots := alloc_from 1%positive.

Definition run (approvals : list (list Candidate)) (seats : Z) :=
  approval_election (fresh_ballots approvals).1 (fresh_ballots approvals).2 seats.

(** The [Result] and the loop variables of a run that is known to
    succeed (used to name the outcome of a concrete run). *)
Definition result_of (out : heap * (exn + Result)) : Result :=
  match out.2 with
  | inr res => res
  | inl _ => mkResult [] [] []
  end.

Definition state_of (out : exn + state) : state :=
  match out with
  | inr st => st
  | inl _ => mkState ∅ [] []
  end.

(** Round [i] (counting from 0) of a [Result] that has one. *)
Definition round_of (res : Result) (i : nat) : Round :=
  default (mkRound (mkCandidate "") [] 0%Qc) (rounds res !! i).

(** The scores of a round, as plain fractions. *)
Definition scores_Q (r : Round) : list (Candidate * Q) :=
  (λ x, (x.1, this x.2)) <$> scores r.

(** The ballots of Example 2 of the documentation:
    2 x [A, B], 1 x [A], 1 x [B]. *)
Definition spav_example : list (list Candidate) := [[A; B]; [A; B]; [A]; [B]].

(** The ballots of Example 2 again, with one [Ballot] object for the
    two [A, B] ballots: the list refers to it twice. *)
Definition shared_heap : heap :=
  <[7%positive := mkBallot [A; B] 1%Qc]>
    (<[8%positive := mkBallot [A] 1%Qc]>
       (<[9%positive := mkBallot [B] 1%Qc]> ∅)).

Definition shared_ballots : list loc := [7; 7; 8; 9]%positive.

(** The ballots of Example 1 of the documentation:
    3 x [A, B], 2 x [B], 1 x [C]. *)
Definition plain_example : list (list Candidate) :=
  [[A; B]; [A; B]; [A; B]; [B]; [B]; [C]].

(** Two ballots, the second of which lists A twice. *)
Definition repeated_example : list (list Candidate) := [[B]; [A; A]].

(** ** The table of a round's report *)

(** One row of the table [Round.__repr__] builds: name (with the winner
    mark), approve, do not approve, and the two as shares of the votes. *)
Record table_row := mkRow {
  row_name : string;
  row_approve : Qc;
  row_disapprove : Qc;
  row_pct_approve : Qc;
  row_pct_disapprove : Qc
}.

(** [x / y], which raises [ZeroDivisionError] for [y = 0]. *)
Definition py_div (x y : Qc) : option Qc :=
  if decide (y = 0%Qc) then None else Some (x / y)%Qc.

(** The body of the loop of [Round.__repr__], for the item [e] of
    [most_common()]. *)
Definition table_row_of (r : Round) (e : Candidate * Qc) : option table_row :=
  let votes := weighted_votes r in
  let win := if decide (e.1 = winner r) then " (winner)" else "" in
  pct ← py_div e.2 votes;
  pct' ← py_div (votes - e.2)%Qc votes;
  Some (mkRow (String.append (name e.1) win) e.2 (votes - e.2)%Qc pct pct').

(** The table [Round.__repr__] hands to [tabulate]; [None] when building
    it raises [ZeroDivisionError]. *)
Definition round_table (r : Round) : option (list table_row) :=
  mapM (table_row_of r) (most_common (scores r)).

(** The row of an item when the votes are not zero. *)
Definition table_row_total (r : Round) (e : Candidate * Qc) : table_row :=
  mkRow (String.append (name e.1)
           (if decide (e.1 = winner r) then " (winner)" else ""))
        e.2 (weighted_votes r - e.2)%Qc
        (e.2 / weighted_votes r)%Qc
        ((weighted_votes r - e.2) / weighted_votes r)%Qc.

(** ** Reading ballots *)

(** What [parse_ballots] uses of Python's built-ins: [int(s)] on a string
    ([None] when it raises [ValueError]) and [s.strip()]. *)
Class Builtins := {
  py_int : string → option Z;
  py_strip : string → string
}.

Section parse_ballots.
Context `{!Builtins}.

(** The body of [for row in reader], as the list of ballots it appends:
    [first, *rest = row], the count [int(first)] or 1, and [number]
    ballots over the stripped names of [rest]. *)
Definition row_ballots (row : list string) : exn + list Ballot :=
  match row with
  | [] => inl unpack_error
  | first :: rest =>
      let number := default 1%Z (py_int first) in
      let approved_candidates :=
        (λ name, mkCandidate (py_strip name)) <$> rest in
      inr (replicate (Z.to_nat number) (mkBallot approved_candidates 1%Qc))
  end.

(** [for row in reader: ...], with the list [ballots] built so far. *)
Fixpoint parse_loop (ballots : list Ballot) (rows : list (list string)) :
    exn + list Ballot :=
  match rows with
  | [] => inr ballots
  | row :: rows' =>
      match row_ballots row with
      | inl e => inl e
      | inr new => parse_loop (ballots ++ new) rows'
      end
  end.

(** [parse_ballots], from the rows the [csv] reader yields. *)
Definition parse_rows (rows : list (list string)) : exn + list Ballot :=
  parse_loop [] rows.

(** The number of ballots a row stands for, and the candidates it
    names. *)
Definition row_count (row : list string) : nat :=
  match row with
  | [] => 0
  | first :: _ => Z.to_nat (default 1%Z (py_int first))
  end.

Definition row_candidates (row : list string) : list Candidate :=
  match row with
  | [] => []
  | _ :: rest => (λ name, mkCandidate (py_strip name)) <$> rest
  end.
End parse_ballots.

(** Creating the [Ballot] objects of a list: each one is a new object,
    at a location the heap does not use yet. *)
Fixpoint new_ballots (h : heap) (bs : list Ballot) : heap * list loc :=
  match bs with
  | [] => (h, [])
  | b :: bs' =>
      let l := stdpp.base.fresh (dom h) in
      let rest := new_ballots (<[l := b]> h) bs' in
      (rest.1, l :: rest.2)
  end.

(** The two calls of [main]: [parse_ballots], then [approval_election]
    on the ballots it returns. *)
Definition elect_rows `{!Builtins} (h : heap) (rows : list (list string))
    (seats : Z) : heap * (exn + Result) :=
  match parse_rows rows with
  | inl e => (h, inl e)
  | inr bs => approval_election (new_ballots h bs).1 (new_ballots h bs).2 seats
  end.

(** Stand-ins to run examples with: decimal numerals in ASCII digits
    with an optional minus sign for [int], and no surrounding white
    space to strip. *)
Definition digit_value (a : Ascii.ascii) : option Z :=
  let n := (Z.of_N (Ascii.N_of_ascii a) - 48)%Z in
  if decide (0 ≤ n ≤ 9)%Z then Some n else None.

Fixpoint digits_value (acc : Z) (s : string) : option Z :=
  match s with
  | EmptyString => Some acc
  | String a s' => d ← digit_value a; digits_value (10 * acc + d) s'
  end.

Definition numeral_value (s : string) : option Z :=
  match s with
  | EmptyString => None
  | String a s' =>
      if decide (Ascii.N_of_ascii a = 45%N) then
        if decide (s' = EmptyString) then None
        else Z.opp <$> digits_value 0 s'
      else digits_value 0 s
  end.

Definition example_builtins : Builtins :=
  {| py_int := numeral_value; py_strip := λ s, s |}.

(** The rows of Example 2 of the documentation, as counted rows. *)
Definition spav_rows : list (list string) :=
  [["2"; "A"; "B"]; ["1"; "A"]; ["1"; "B"]].

(** The ballots these rows stand for. *)
Definition spav_parsed : list Ballot :=
  [mkBallot [A; B] 1%Qc; mkBallot [A; B] 1%Qc;
   mkBallot [A] 1%Qc; mkBallot [B] 1%Qc].

(** ** The election over Python's own numbers

    The model above computes with exact rationals.  Python computes the
    weights, scores and sums on [int] and [float] values, with rounding;
    which scores tie, and what a sum comes to, is decided by that
    arithmetic.  The model of this module is the same program with the
    arithmetic left open: the numbers and the four operations the
    function uses on them are the fields of [Numbers], and every
    statement about this model holds for whatever Python computes. *)
Module Py.

Class Numbers := {
  (** The values of [ballot.weight], of the scores and of
      [weighted_votes]: Python's [int] and [float]. *)
  num : Type;
  (** The [int] 0: what a [Counter] reads for a missing key. *)
  int_0 : num;
  (** The [int] 1: the default weight of a [Ballot]. *)
  int_1 : num;
  (** [x + y]; [None] when it raises [OverflowError] (an [int] too large
      to convert, added to a [float]). *)
  num_add : num → num → option num;
  (** [x < y], as [sorted] compares two scores. *)
  num_lt : num → num → bool;
  (** [sum(xs)]; [None] when it raises [OverflowError]. *)
  num_sum : list num → option num;
  (** [1 / n] for the [int] [n >= 1]: a [float]. *)
  one_over : positive → num
}.

(** What [+] and [sum] raise on an [int] that no [float] can hold. *)
Definition overflow_error : exn :=
  mkExn "OverflowError" "int too large to convert to float".

Section election.
Context `{!Numbers}.

Record Ballot := mkBallot {
  approved_candidates : list Candidate;
  weight : num
}.

#[global] Instance Ballot_inhabited : Inhabited Ballot :=
  populate (mkBallot [] int_0).

Record Round := mkRound {
  winner : Candidate;
  scores : list (Candidate * num);
  weighted_votes : num
}.

Record Result := mkResult {
  winners : list Candidate;
  rounds : list Round;
  ballots : list loc
}.

(** [scores[c]]: a missing key reads as the [int] 0. *)
Fixpoint counter_get (s : list (Candidate * num)) (c : Candidate) : num :=
  match s with
  | [] => int_0
  | (c', v) :: s' => if decide (c' = c) then v else counter_get s' c
  end.

(** [scores[c] = v]. *)
Fixpoint counter_set (s : list (Candidate * num)) (c : Candidate) (v : num) :
    list (Candidate * num) :=
  match s with
  | [] => [(c, v)]
  | (c', v') :: s' =>
      if decide (c' = c) then (c', v) :: s' else (c', v') :: counter_set s' c v
  end.

(** [scores[c] += w]: nothing is stored when the addition raises. *)
Definition counter_add (s : list (Candidate * num)) (c : Candidate) (w : num) :
    option (list (Candidate * num)) :=
  v ← num_add (counter_get s c) w; Some (counter_set s c v).

(** [most_common()]: [sorted(items, key=itemgetter(1), reverse=True)],
    a stable sort that compares with [<] only. *)
Fixpoint insert_desc (x : Candidate * num) (l : list (Candidate * num)) :
    list (Candidate * num) :=
  match l with
  | [] => [x]
  | y :: l' => if num_lt x.2 y.2 then y :: insert_desc x l' else x :: l
  end.

Definition most_common (s : list (Candidate * num)) : list (Candidate * num) :=
  foldr insert_desc [] s.

(** One step of the scoring pass: [None] once an addition has raised. *)
Definition score_entry (winners : list Candidate) (w : num)
    (acc : option (list (Candidate * num))) (candidate : Candidate) :
    option (list (Candidate * num)) :=
  scores ← acc;
  if decide (candidate ∈ winners) then Some scores
  else counter_add scores candidate w.

(** The inner loop of the scoring pass, for one ballot. *)
Definition score_ballot (winners : list Candidate) (b : Ballot)
    (acc : option (list (Candidate * num))) :
    option (list (Candidate * num)) :=
  foldl (score_entry winners (weight b)) acc (approved_candidates b).

(** The scoring pass. *)
Definition score_ballots (h : gmap loc Ballot) (ballots : list loc)
    (winners : list Candidate) : option (list (Candidate * num)) :=
  foldl (λ acc l, score_ballot winners (h !!! l) acc) (Some []) ballots.

(** [sum(b.weight for b in ballots)]. *)
Definition sum_weights (h : gmap loc Ballot) (ballots : list loc) :
    option num :=
  num_sum ((λ l, weight (h !!! l)) <$> ballots).

(** [sum(1 for c in ballot.approved_candidates if c in winners)]. *)
Definition approved_winners (winners : list Candidate) (b : Ballot) : nat :=
  length (filter (λ c, c ∈ winners) (approved_candidates b)).

(** [ballot.weight = w]. *)
Definition set_weight (w : num) (b : Ballot) : Ballot :=
  mkBallot (approved_candidates b) w.

(** The reweighting pass: [ballot.weight = 1 / (1 + m)]. *)
Definition reweight_ballots (h : gmap loc Ballot) (ballots : list loc)
    (winners : list Candidate) : gmap loc Ballot :=
  foldl (λ h l,
           let m := approved_winners winners (h !!! l) in
           alter (set_weight (one_over (Pos.of_succ_nat m))) l h)
        h ballots.

Record state := mkState {
  st_heap : gmap loc Ballot;
  st_winners : list Candidate;
  st_rounds : list Round
}.

(** The body of the [while] loop.  The scoring pass comes first and may
    raise; then the unpacking of [most_common()]; then the sum, inside
    [rounds.append(...)]; the reweighting pass, which cannot raise, is
    last, so a round that raises has written nothing. *)
Definition election_round (ballots : list loc) (st : state) : exn + state :=
  match score_ballots (st_heap st) ballots (st_winners st) with
  | None => inl overflow_error
  | Some scores =>
      match most_common scores with
      | [] => inl unpack_error
      | (winner, _) :: _ =>
          let winners := st_winners st ++ [winner] in
          match sum_weights (st_heap st) ballots with
          | None => inl overflow_error
          | Some votes =>
              inr (mkState (reweight_ballots (st_heap st) ballots winners)
                           winners
                           (st_rounds st ++ [mkRound winner scores votes]))
          end
      end
  end.

(** [while len(winners) < seats: ...], then [return Result(...)]. *)
Equations? election_loop (ballots : list loc) (seats : Z) (st : state) :
    gmap loc Ballot * (exn + Result)
    by wf (Z.to_nat (seats - Z.of_nat (length (st_winners st)))) lt :=
  election_loop ballots seats st
    with decide (Z.of_nat (length (st_winners st)) < seats)%Z => {
    | right _ =>
        (st_heap st, inr (mkResult (st_winners st) (st_rounds st) ballots))
    | left _ with inspect (election_round ballots st) => {
        | exist _ (inl e) _ => (st_heap st, inl e)
        | exist _ (inr st') Hround => election_loop ballots seats st' } }.
Proof.
  unfold election_round in Hround.
  destruct (score_ballots _ _ _); [|done].
  destruct (most_common _) as [|[w ?] ?]; [done|].
  destruct (sum_weights _ _); [|done].
  injection Hround as <-; simpl. rewrite length_app; simpl; lia.
Qed.

Definition init_state (h : gmap loc Ballot) : state := mkState h [] [].

Definition approval_election (h : gmap loc Ballot) (ballots : list loc)
    (seats : Z) : gmap loc Ballot * (exn + Result) :=
  election_loop ballots seats (init_state h).

(** The loop variables after [k] rounds, if none of them raises. *)
Fixpoint run_rounds (k : nat) (ballots : list loc) (st : state) : exn + state :=
  match k with
  | O => inr st
  | S k' =>
      match election_round ballots st with
      | inl e => inl e
      | inr st' => run_rounds k' ballots st'
      end
  end.

(** The call completes its [k]-th round, with loop variables [st]. *)
Definition after_round (h : gmap loc Ballot) (ballots : list loc) (seats : Z)
    (k : nat) (st : state) : Prop :=
  k ≤ Z.to_nat seats ∧ run_rounds k ballots (init_state h) = inr st.

(** The ballot objects a list of references stands for, in order. *)
Definition deref (h : gmap loc Ballot) (ballots : list loc) : list Ballot :=
  (λ l, h !!! l) <$> ballots.

Definition refs_live (h : gmap loc Ballot) (ballots : list loc) : Prop :=
  ∀ l, l ∈ ballots → is_Some (h !! l).

(** Every ballot of the list has the default weight, the [int] 1. *)
Definition fresh (h : gmap loc Ballot) (ballots : list loc) : Prop :=
  ∀ l, l ∈ ballots → weight (h !!! l) = int_1.

(** [c] is the key that comes first, in insertion order, among the keys
    of [s] whose value no other value exceeds: every earlier value is
    smaller, no later value is larger. *)
Definition first_highest (s : list (Candidate * num)) (c : Candidate) : Prop :=
  ∃ pre v post,
    s = pre ++ (c, v) :: post ∧
    (∀ x, x ∈ pre → num_lt x.2 v = true) ∧
    (∀ x, x ∈ post → num_lt v x.2 = false).

(** The approval entries of a list of ballots, in the order the scoring
    pass meets them, each with the weight of its ballot. *)
Definition entries (bs : list Ballot) : list (Candidate * num) :=
  b ← bs; (λ c, (c, weight b)) <$> approved_candidates b.

(** The scoring pass over a flat list of entries. *)
Definition tally (ws : list Candidate) (acc : option (list (Candidate * num)))
    (es : list (Candidate * num)) : option (list (Candidate * num)) :=
  foldl (λ acc e, score_entry ws e.2 acc e.1) acc es.

(** What the reweighting pass makes of one ballot. *)
Definition reweight_ballot (winners : list Candidate) (b : Ballot) : Ballot :=
  set_weight (one_over (Pos.of_succ_nat (approved_winners winners b))) b.

(** [(...((x + w1) + w2) + ...) + wn], as repeated [+=] computes it;
    [None] as soon as one addition raises. *)
Definition accumulate (x : option num) (ws : list num) : option num :=
  foldl (λ acc w, a ← acc; num_add a w) x ws.

(** The weights of the entries that name [c], in order. *)
Definition weights_for (c : Candidate) (es : list (Candidate * num)) :
    list num :=
  (filter (λ e, e.1 = c) es).*2.

(** [<] orders the scores: never [x < x], transitive, and of two values
    one of which is smaller than the other, any third is larger than the
    one or smaller than the other.  Python's [int]s and [float]s other
    than NaN are compared so. *)
Definition ordered : Prop :=
  (∀ x, num_lt x x = false) ∧
  (∀ x y z, num_lt x y = true → num_lt y z = true → num_lt x z = true) ∧
  (∀ x y z, num_lt x y = true → num_lt x z = true ∨ num_lt z y = true).
End election.

(** Exact rationals as numbers: every addition and division is exact and
    nothing overflows.  An instance to run the model with. *)
Definition exact_numbers : Numbers :=
  {| num := Qc;
     int_0 := 0%Qc;
     int_1 := 1%Qc;
     num_add := λ x y, Some (x + y)%Qc;
     num_lt := λ x y, bool_decide (x < y)%Qc;
     num_sum := λ xs, Some (foldl Qcplus 0%Qc xs);
     one_over := λ n, (1 / Qc_of_Z (Z.pos n))%Qc |}.
End Py.

(** The entries of an approval list that name a winner, counted winner
    by winner: a candidate listed twice counts twice. *)
Definition entries_among (winners approved : list Candidate) : nat :=
  sum_list ((λ w, length (filter (λ c, c = w) approved)) <$> winners).

(** The winners that an approval list names: the number of candidates of
    the list that are among the winners. *)
Definition candidates_among (winners approved : list Candidate) : nat :=
  length (filter (λ w, w ∈ approved) winners).

(** Fresh ballots over the exact numbers, one per approval list. *)
Fixpoint py_alloc_from (l : loc) (approvals : list (list Candidate)) :
    gmap loc (@Py.Ballot Py.exact_numbers) * list loc :=
  match approvals with
  | [] => (∅, [])
  | a :: rest =>
      let rest' := py_alloc_from (Pos.succ l) rest in
      (<[l := @Py.mkBallot Py.exact_numbers a 1%Qc]> (rest'.1), l :: rest'.2)
  end.

Definition py_fresh_ballots := py_alloc_from 1%positive.

Definition py_run (approvals : list (list Candidate)) (seats : Z) :=
  @Py.approval_election Py.exact_numbers
    (py_fresh_ballots approvals).1 (py_fresh_ballots approvals).2 seats.

Definition py_result_of
    (out : gmap loc (@Py.Ballot Py.exact_numbers) *
           (exn + @Py.Result Py.exact_numbers)) : @Py.Result Py.exact_numbers :=
  match out.2 with
  | inr res => res
  | inl _ => Py.mkResult [] [] []
  end.

Definition py_state_of (out : exn + @Py.state Py.exact_numbers) :
    @Py.state Py.exact_numbers :=
  match out with
  | inr st => st
  | inl _ => Py.mkState ∅ [] []
  end.

Definition py_round_of (res : @Py.Result Py.exact_numbers) (i : nat) :
    @Py.Round Py.exact_numbers :=
  default (@Py.mkRound Py.exact_numbers (mkCandidate "") [] 0%Qc)
          (Py.rounds res !! i).


(** * Properties *)

Lemma election_round_length ballots st st' :
  election_round ballots st = inr st' →
  length (st_winners st') = S (length (st_winners st)).
Proof.
  unfold election_round.
  destruct (most_common _) as [|[w ?] ?]; [done|].
  intros [= <-]; simpl. rewrite length_app; simpl; lia.
Qed.

(** ** The loop, one round at a time *)

Lemma election_loop_eq ballots seats st :
  election_loop ballots seats st =
    if decide (Z.of_nat (length (st_winners st)) < seats)%Z then
      match election_round ballots st with
      | inl e => (st_heap st, inl e)
      | inr st' => election_loop ballots seats st'
      end
    else (st_heap st, inr (mkResult (st_winners st) (st_rounds st) ballots)).
Proof.
  funelim (election_loop ballots seats st); rewrite Heq; simpl; try done.
  all: match goal with E : election_round _ _ = _ |- _ => by rewrite E end.
Qed.

Lemma run_rounds_add j k ballots st :
  run_rounds (j + k) ballots st =
    match run_rounds j ballots st with
    | inl e => inl e
    | inr st' => run_rounds k ballots st'
    end.
Proof.
  revert st; induction j as [|j IH]; intros st; simpl; [done|].
  destruct (election_round ballots st); [done|apply IH].
Qed.

Lemma run_rounds_S k ballots st :
  run_rounds (S k) ballots st =
    match run_rounds k ballots st with
    | inl e => inl e
    | inr st' => election_round ballots st'
    end.
Proof.
  replace (S k) with (k + 1) by lia. rewrite run_rounds_add.
  destruct (run_rounds k ballots st); [done|]. simpl.
  by destruct (election_round _ _).
Qed.

(** The loop returns exactly when the remaining rounds all complete. *)
Lemma election_loop_returns ballots seats st h' res :
  election_loop ballots seats st = (h', inr res) ↔
  ∃ st',
    run_rounds (Z.to_nat (seats - Z.of_nat (length (st_winners st))))
               ballots st = inr st' ∧
    h' = st_heap st' ∧
    res = mkResult (st_winners st') (st_rounds st') ballots.
Proof.
  remember (Z.to_nat (seats - Z.of_nat (length (st_winners st)))) as n eqn:Hn.
  revert st Hn; induction n as [|n IH]; intros st Hn;
    rewrite election_loop_eq; case_decide; try lia; simpl.
  - split; [intros [= <- <-]; eauto|]. by intros (? & [= <-] & -> & ->).
  - destruct (election_round ballots st) as [e|st1] eqn:E.
    + split; [done|]. by intros (? & ? & _).
    + apply IH. apply election_round_length in E. lia.
Qed.

(** The loop raises exactly when some remaining round raises, and it
    leaves the heap as the rounds before that one made it. *)
Lemma election_loop_raises ballots seats st h' e :
  election_loop ballots seats st = (h', inl e) ↔
  ∃ k st',
    k < Z.to_nat (seats - Z.of_nat (length (st_winners st))) ∧
    run_rounds k ballots st = inr st' ∧
    election_round ballots st' = inl e ∧
    h' = st_heap st'.
Proof.
  remember (Z.to_nat (seats - Z.of_nat (length (st_winners st)))) as n eqn:Hn.
  revert st Hn; induction n as [|n IH]; intros st Hn;
    rewrite election_loop_eq; case_decide; try lia; simpl.
  - split; [done|]. intros (? & ? & ? & _); lia.
  - destruct (election_round ballots st) as [e1|st1] eqn:E.
    + split.
      * intros [= <- <-]. exists 0, st. repeat split; [lia|done].
      * intros ([|k] & st' & _ & Hk & He & ->); simpl in Hk.
        -- injection Hk as <-. congruence.
        -- by rewrite E in Hk.
    + rewrite IH by (apply election_round_length in E; lia). split.
      * intros (k & st' & ? & ? & ? & ->). exists (S k), st'.
        repeat split; [lia| |done]. simpl. by rewrite E.
      * intros ([|k] & st' & ? & Hk & He & ->); simpl in Hk.
        -- injection Hk as <-. congruence.
        -- rewrite E in Hk. exists k, st'. repeat split; [lia|done..].
Qed.

Lemma approval_election_returns h ballots seats h' res :
  approval_election h ballots seats = (h', inr res) ↔
  ∃ st,
    after_round h ballots seats (Z.to_nat seats) st ∧
    h' = st_heap st ∧
    res = mkResult (st_winners st) (st_rounds st) ballots.
Proof.
  unfold approval_election, after_round. rewrite election_loop_returns.
  simpl. rewrite Z.sub_0_r. split.
  - intros (st & ? & ? & ?). exists st. by split_and!.
  - intros (st & [_ ?] & ? & ?). by exists st.
Qed.

Lemma approval_election_raises h ballots seats h' e :
  approval_election h ballots seats = (h', inl e) ↔
  ∃ k st,
    k < Z.to_nat seats ∧
    after_round h ballots seats k st ∧
    election_round ballots st = inl e ∧
    h' = st_heap st.
Proof.
  unfold approval_election, after_round. rewrite election_loop_raises.
  simpl. rewrite Z.sub_0_r. split.
  - intros (k & st & ? & ? & ? & ?). exists k, st. split_and!; [done|lia|done..].
  - intros (k & st & ? & [? ?] & ? & ?). by exists k, st.
Qed.

(** ** The worked examples of the documentation *)

(** Example 1: B wins with 5 approvals, against 3 for A and 1 for C. *)
Example plain_example_run :
  winners (result_of (run plain_example 1)) = [B] ∧
  scores_Q (round_of (result_of (run plain_example 1)) 0) =
    [(A, 3 # 1); (B, 5 # 1); (C, 1 # 1)]%Q.
Proof. split; by vm_compute. Qed.

(** Example 2: A wins the first round with 3, ahead of B with 3 as well
    but seen later; B wins the second round with 2 / 2 + 1 = 2. *)
Example spav_example_run :
  winners (result_of (run spav_example 2)) = [A; B] ∧
  scores_Q (round_of (result_of (run spav_example 2)) 0) =
    [(A, 3 # 1); (B, 3 # 1)]%Q ∧
  (this ∘ weight <$>
     deref (st_heap (state_of (run_rounds 1 (fresh_ballots spav_example).2
                                 (init_state (fresh_ballots spav_example).1))))
           (fresh_ballots spav_example).2) = [1 # 2; 1 # 2; 1 # 2; 1 # 1]%Q ∧
  scores_Q (round_of (result_of (run spav_example 2)) 1) = [(B, 2 # 1)]%Q.
Proof. split_and!; by vm_compute. Qed.

(** Example 4: two candidates and three seats. *)
Example short_example_run :
  (run [[A; B]] 3).2 = inl unpack_error.
Proof. by vm_compute. Qed.

(** ** [Counter]: keys, values and insertion order *)

Section counter.
Implicit Types (s : Counter) (c : Candidate) (v w : Qc).

Lemma counter_set_keys_old s c v :
  c ∈ s.*1 → (counter_set s c v).*1 = s.*1.
Proof.
  induction s as [|[c' v'] s IH]; csimpl; [by intros ?%elem_of_nil|].
  destruct (decide (c' = c)) as [->|Hne]; csimpl; [done|].
  intros [?|?]%elem_of_cons; [done|]. by rewrite IH.
Qed.

Lemma counter_set_keys_new s c v :
  c ∉ s.*1 → (counter_set s c v).*1 = s.*1 ++ [c].
Proof.
  induction s as [|[c' v'] s IH]; csimpl; [done|].
  intros [? ?]%not_elem_of_cons.
  rewrite decide_False by done. csimpl. by rewrite IH.
Qed.

Lemma counter_set_keys s c v :
  (counter_set s c v).*1 = if decide (c ∈ s.*1) then s.*1 else s.*1 ++ [c].
Proof.
  case_decide; auto using counter_set_keys_old, counter_set_keys_new.
Qed.

Lemma counter_get_set s c c' v :
  counter_get (counter_set s c v) c' =
    if decide (c = c') then v else counter_get s c'.
Proof.
  induction s as [|[c0 v0] s IH]; simpl.
  - repeat case_decide; congruence.
  - destruct (decide (c0 = c)) as [->|Hne]; simpl;
      repeat case_decide; congruence.
Qed.

(** The entry of a key is its value as [counter_get] reads it. *)
Lemma counter_get_elem_of s c v :
  NoDup s.*1 → (c, v) ∈ s → counter_get s c = v.
Proof.
  induction s as [|[c0 v0] s IH]; csimpl.
  - by intros _ ?%elem_of_nil.
  - rewrite NoDup_cons, elem_of_cons. intros [Hc0 Hs] [[= <- <-]|Hin].
    + by rewrite decide_True.
    + rewrite decide_False; [by apply IH|].
      intros ->. apply Hc0. apply list_elem_of_fmap. by exists (c, v).
Qed.
End counter.

(** ** [most_common]: a stable sort by descending value *)

Lemma insert_desc_Permutation x l : insert_desc x l ≡ₚ x :: l.
Proof.
  induction l as [|y l IH]; simpl; [done|].
  case_decide; [|done]. rewrite IH. apply Permutation_swap.
Qed.

Lemma most_common_Permutation s : most_common s ≡ₚ s.
Proof.
  induction s as [|x s IH]; simpl; [done|].
  by rewrite insert_desc_Permutation, IH.
Qed.

Lemma most_common_nil s : most_common s = [] ↔ s = [].
Proof.
  split; [|by intros ->].
  intros H. apply Permutation_nil_r. by rewrite <-H, most_common_Permutation.
Qed.

(** The first item of [most_common()] is the entry that comes first, in
    insertion order, among those with the highest value. *)
Lemma most_common_head s c v rest :
  most_common s = (c, v) :: rest →
  ∃ pre post,
    s = pre ++ (c, v) :: post ∧
    (∀ x, x ∈ pre → (x.2 < v)%Qc) ∧
    (∀ x, x ∈ post → (x.2 ≤ v)%Qc).
Proof.
  revert c v rest.
  induction s as [|[cx vx] s IH]; intros c v rest; simpl; [done|].
  destruct (most_common s) as [|[c1 v1] rest1] eqn:Hs; simpl.
  - apply most_common_nil in Hs as ->. intros [= -> ->].
    exists [], []. split_and!; [done|intros ? []%elem_of_nil..].
  - destruct (IH _ _ _ eq_refl) as (pre & post & -> & Hpre & Hpost).
    case_decide as Hlt.
    + intros [= <- <- <-]. exists ((cx, vx) :: pre), post.
      split_and!; [done| |done].
      intros y [->|?]%elem_of_cons; auto.
    + intros [= <- <- <-]. exists [], (pre ++ (c1, v1) :: post).
      apply Qcnot_lt_le in Hlt. simpl in Hlt.
      split_and!; [done|intros ? []%elem_of_nil|].
      intros y [Hy|[->|Hy]%elem_of_cons]%elem_of_app; simpl.
      * apply Qclt_le_weak, Qclt_le_trans with v1; auto.
      * done.
      * apply Qcle_trans with v1; auto.
Qed.

(** ** The heap: reading through references, writing weights *)

(** One step of the reweighting pass rewrites the object behind [l0], if
    there is one, and nothing else. *)
Lemma reweight_step_lookup (h : heap) ws l0 l :
  alter (set_weight (new_weight (approved_winners ws (h !!! l0)))) l0 h !! l =
    if decide (l = l0) then reweight_ballot ws <$> h !! l else h !! l.
Proof.
  case_decide as Hl.
  - subst l. rewrite lookup_alter_eq, lookup_total_alt.
    by destruct (h !! l0).
  - by rewrite lookup_alter_ne.
Qed.

(** The reweighting pass rewrites exactly the objects the list refers
    to, however often it refers to them. *)
Lemma reweight_ballots_lookup (h : heap) ballots ws l :
  reweight_ballots h ballots ws !! l =
    if decide (l ∈ ballots) then reweight_ballot ws <$> h !! l else h !! l.
Proof.
  unfold reweight_ballots. revert h.
  induction ballots as [|l0 ballots IH]; intros h; cbn [foldl].
  - case_decide as H; [by apply elem_of_nil in H|done].
  - rewrite IH, !reweight_step_lookup.
    destruct (decide (l = l0)) as [->|Hne].
    + rewrite (decide_True (P := l0 ∈ l0 :: ballots)) by left.
      case_decide; [|done]. by destruct (h !! l0).
    + destruct (decide (l ∈ ballots)) as [Hin|Hin].
      * by rewrite (decide_True (P := l ∈ l0 :: ballots)) by by right.
      * rewrite (decide_False (P := l ∈ l0 :: ballots)); [done|].
        by intros [?|?]%elem_of_cons.
Qed.

Lemma reweight_ballots_lookup_total (h : heap) ballots ws l :
  l ∈ ballots → is_Some (h !! l) →
  reweight_ballots h ballots ws !!! l = reweight_ballot ws (h !!! l).
Proof.
  intros Hin [b Hb]. rewrite !lookup_total_alt, reweight_ballots_lookup.
  rewrite decide_True by done. by rewrite Hb.
Qed.

Lemma reweight_ballots_live (h : heap) ballots ws bs :
  refs_live h bs → refs_live (reweight_ballots h ballots ws) bs.
Proof.
  intros Hlive l Hl. rewrite reweight_ballots_lookup.
  destruct (Hlive l Hl) as [b Hb]. rewrite Hb. case_decide; eauto.
Qed.

Lemma deref_reweight_ballots (h : heap) ballots ws :
  refs_live h ballots →
  deref (reweight_ballots h ballots ws) ballots =
    reweight_ballot ws <$> deref h ballots.
Proof.
  intros Hlive. unfold deref. rewrite <-list_fmap_compose.
  apply list_fmap_ext. intros i l Hl%list_elem_of_lookup_2. simpl.
  apply reweight_ballots_lookup_total; auto.
Qed.

(** The scoring pass and the sum read the heap only through the list. *)
Lemma score_ballots_deref (h : heap) ballots ws :
  score_ballots h ballots ws =
    foldl (λ s b, score_ballot ws b s) [] (deref h ballots).
Proof. unfold score_ballots, deref. by rewrite foldl_fmap. Qed.

Lemma sum_weights_deref (h : heap) ballots :
  sum_weights h ballots =
    foldl (λ acc b, (acc + weight b)%Qc) 0%Qc (deref h ballots).
Proof. unfold sum_weights, deref. by rewrite foldl_fmap. Qed.

(** ** What one round does *)

Lemma election_round_inr ballots st st' :
  election_round ballots st = inr st' ↔
  ∃ w v rest,
    most_common (score_ballots (st_heap st) ballots (st_winners st)) =
      (w, v) :: rest ∧
    st' = mkState
            (reweight_ballots (st_heap st) ballots (st_winners st ++ [w]))
            (st_winners st ++ [w])
            (st_rounds st ++
               [mkRound w
                  (score_ballots (st_heap st) ballots (st_winners st))
                  (sum_weights (st_heap st) ballots)]).
Proof.
  unfold election_round.
  destruct (most_common _) as [|[w v] rest]; split.
  - done.
  - by intros (? & ? & ? & ? & _).
  - intros [= <-]. by exists w, v, rest.
  - by intros (? & ? & ? & [= <- _ _] & ->).
Qed.

Lemma election_round_inl ballots st e :
  election_round ballots st = inl e ↔
  score_ballots (st_heap st) ballots (st_winners st) = [] ∧ e = unpack_error.
Proof.
  unfold election_round. rewrite <-most_common_nil.
  destruct (most_common _) as [|[w v] rest]; split.
  - by intros [= <-].
  - by intros [_ ->].
  - done.
  - by intros [? _].
Qed.

(** ** The rounds of one call *)

Lemma run_rounds_extends k ballots st st' :
  run_rounds k ballots st = inr st' →
  ∃ rs,
    length rs = k ∧
    st_winners st' = st_winners st ++ (winner <$> rs) ∧
    st_rounds st' = st_rounds st ++ rs.
Proof.
  revert st; induction k as [|k IH]; intros st; simpl.
  - intros [= <-]. exists []. by rewrite !app_nil_r.
  - destruct (election_round ballots st) as [|st1] eqn:E; [done|].
    intros Hrun. apply IH in Hrun as (rs & Hlen & Hw & Hr). rewrite Hw, Hr.
    apply election_round_inr in E as (w & v & rest & _ & ->); simpl.
    exists (mkRound w (score_ballots (st_heap st) ballots (st_winners st))
                    (sum_weights (st_heap st) ballots) :: rs).
    rewrite <-!app_assoc; simpl. by rewrite Hlen.
Qed.

Lemma run_rounds_prefix j k ballots st st' :
  j ≤ k → run_rounds k ballots st = inr st' →
  ∃ stj,
    run_rounds j ballots st = inr stj ∧
    run_rounds (k - j) ballots stj = inr st'.
Proof.
  intros Hjk. replace k with (j + (k - j)) at 1 by lia.
  rewrite run_rounds_add.
  destruct (run_rounds j ballots st) as [|stj]; [done|]. eauto.
Qed.

Section call.
Context (h : heap) (ballots : list loc) (seats : Z).

Lemma after_round_0 st :
  after_round h ballots seats 0 st ↔ st = init_state h.
Proof. unfold after_round; simpl. split; [by intros [_ [= <-]]|]. intros ->; split; [lia|done]. Qed.

Lemma after_round_S k st :
  after_round h ballots seats (S k) st ↔
  ∃ stk,
    S k ≤ Z.to_nat seats ∧
    after_round h ballots seats k stk ∧
    election_round ballots stk = inr st.
Proof.
  unfold after_round. rewrite run_rounds_S. split.
  - intros [? Hk].
    destruct (run_rounds k _ _) as [|stk]; [done|].
    exists stk. split_and!; [done|lia|done..].
  - intros (stk & ? & [_ ->] & ?). done.
Qed.

Lemma after_round_fun k st st' :
  after_round h ballots seats k st → after_round h ballots seats k st' →
  st = st'.
Proof. intros [_ H1] [_ H2]. congruence. Qed.

(** Winners and rounds are built in step, one of each per round. *)
Lemma after_round_lengths k st :
  after_round h ballots seats k st →
  length (st_winners st) = k ∧ length (st_rounds st) = k ∧
  winner <$> st_rounds st = st_winners st.
Proof.
  intros [_ (rs & <- & Hw & Hr)%run_rounds_extends].
  rewrite Hw, Hr; simpl. by rewrite length_fmap.
Qed.

(** The loop variables of an earlier round are prefixes of the later
    ones. *)
Lemma after_round_prefix j k st :
  j ≤ k → after_round h ballots seats k st →
  ∃ stj,
    after_round h ballots seats j stj ∧
    st_winners stj = take j (st_winners st) ∧
    st_rounds stj = take j (st_rounds st).
Proof.
  intros Hjk [Hk Hrun].
  destruct (run_rounds_prefix j k _ _ _ Hjk Hrun) as (stj & Hj & Hrest).
  assert (Haj : after_round h ballots seats j stj) by (split; [lia|done]).
  exists stj. split; [done|].
  destruct (after_round_lengths _ _ Haj) as (Hw & Hr & _).
  apply run_rounds_extends in Hrest as (rs & _ & Hw' & Hr').
  rewrite Hw', Hr'. by rewrite !take_app_length'.
Qed.

(** From the first round on, the weight of every listed ballot is the
    one the last reweighting pass gave it; other objects are as they
    were before the call. *)
Lemma after_round_heap k st l :
  after_round h ballots seats k st → 1 ≤ k →
  st_heap st !! l =
    if decide (l ∈ ballots)
    then reweight_ballot (st_winners st) <$> h !! l else h !! l.
Proof.
  revert st. induction k as [|k IH]; intros st Hst Hk; [lia|].
  apply after_round_S in Hst as (stk & _ & Hstk & Hround).
  apply election_round_inr in Hround as (w & v & rest & _ & ->); simpl.
  rewrite reweight_ballots_lookup.
  destruct k as [|k].
  - apply after_round_0 in Hstk as ->. done.
  - rewrite (IH stk Hstk) by lia.
    case_decide; [|done]. by destruct (h !! l).
Qed.

Lemma after_round_live k st bs :
  after_round h ballots seats k st → refs_live h bs →
  refs_live (st_heap st) bs.
Proof.
  intros Hst Hlive. destruct k as [|k].
  - by apply after_round_0 in Hst as ->.
  - intros l [b Hb]%Hlive. rewrite (after_round_heap (S k)) by (done || lia).
    rewrite Hb. case_decide; eauto.
Qed.

(** What round [i] (counting from 0) recorded, in terms of the loop
    variables it started from. *)
Lemma after_round_round k st i r :
  after_round h ballots seats k st → st_rounds st !! i = Some r →
  ∃ sti,
    after_round h ballots seats i sti ∧
    st_winners sti = take i (st_winners st) ∧
    st_winners st !! i = Some (winner r) ∧
    scores r = score_ballots (st_heap sti) ballots (st_winners sti) ∧
    weighted_votes r = sum_weights (st_heap sti) ballots ∧
    ∃ v rest, most_common (scores r) = (winner r, v) :: rest.
Proof.
  intros Hst Hr.
  destruct (after_round_lengths _ _ Hst) as (Hlw & Hlr & Hw).
  assert (i < k) as Hik by (rewrite <-Hlr; by eapply lookup_lt_Some).
  destruct (after_round_prefix (S i) k st) as (st1 & Hst1 & Hw1 & Hr1);
    [lia|done|].
  apply after_round_S in Hst1 as (sti & _ & Hsti & Hround).
  destruct (after_round_lengths _ _ Hsti) as (Hlwi & Hlri & _).
  apply election_round_inr in Hround as (w & v & rest & Hmc & ->).
  simpl in Hw1, Hr1.
  assert (r = mkRound w
                (score_ballots (st_heap sti) ballots (st_winners sti))
                (sum_weights (st_heap sti) ballots)) as ->.
  { assert (take (S i) (st_rounds st) !! i = Some r) as Hr'
      by (rewrite lookup_take_lt by lia; done).
    rewrite <-Hr1, lookup_app_r, Hlri, Nat.sub_diag in Hr' by lia.
    by injection Hr' as <-. }
  exists sti. split_and!; [done| | |done|done|by exists v, rest].
  - apply (f_equal (take i)) in Hw1.
    rewrite take_app_length', take_take, Nat.min_l in Hw1 by lia. done.
  - rewrite <-Hw, list_lookup_fmap, Hr. done.
Qed.
End call.

(** ** The scoring pass *)

Lemma score_ballots_tally (h : heap) ballots ws :
  score_ballots h ballots ws = tally ws [] (approvals (deref h ballots)).
Proof.
  rewrite score_ballots_deref. unfold tally, approvals.
  generalize (deref h ballots) ([] : Counter). intros bs.
  induction bs as [|b bs IH]; intros s; [done|].
  rewrite bind_cons, foldl_app. cbn [foldl]. rewrite IH. f_equal.
  unfold score_ballot. by rewrite foldl_fmap.
Qed.

Lemma elem_of_approvals bs c w :
  (c, w) ∈ approvals bs ↔
  ∃ b, b ∈ bs ∧ c ∈ approved_candidates b ∧ w = weight b.
Proof.
  unfold approvals. rewrite list_elem_of_bind. split.
  - intros (b & (c' & [= -> ->] & ?)%list_elem_of_fmap & ?). by exists b.
  - intros (b & ? & ? & ->). exists b. split; [|done].
    apply list_elem_of_fmap. by exists c.
Qed.

Lemma elem_of_approvals_fst bs c :
  c ∈ (approvals bs).*1 ↔ ∃ b, b ∈ bs ∧ c ∈ approved_candidates b.
Proof.
  rewrite list_elem_of_fmap. split.
  - intros ([c' w] & -> & (b & ? & ? & _)%elem_of_approvals). by exists b.
  - intros (b & ? & ?). exists (c, weight b). split; [done|].
    apply elem_of_approvals. by exists b.
Qed.

Section first_seen.
Implicit Types (ks cs : list Candidate) (c : Candidate).

Lemma elem_of_see ks c c' : c' ∈ see ks c ↔ c' ∈ ks ∨ c' = c.
Proof.
  unfold see. case_decide; [naive_solver|].
  rewrite elem_of_app, list_elem_of_singleton. done.
Qed.

Lemma see_NoDup ks c : NoDup ks → NoDup (see ks c).
Proof.
  intros Hks. unfold see. case_decide; [done|].
  apply NoDup_app. split_and!; [done| |apply NoDup_singleton].
  by intros x Hx ->%list_elem_of_singleton.
Qed.

Lemma elem_of_foldl_see ks cs c : c ∈ foldl see ks cs ↔ c ∈ ks ∨ c ∈ cs.
Proof.
  revert ks. induction cs as [|c0 cs IH]; intros ks; simpl.
  - rewrite elem_of_nil. naive_solver.
  - rewrite IH, elem_of_see, elem_of_cons. naive_solver.
Qed.

Lemma foldl_see_NoDup ks cs : NoDup ks → NoDup (foldl see ks cs).
Proof.
  revert ks. induction cs as [|c0 cs IH]; intros ks Hks; simpl; [done|].
  by apply IH, see_NoDup.
Qed.

Lemma elem_of_first_seen cs c : c ∈ first_seen cs ↔ c ∈ cs.
Proof.
  unfold first_seen. rewrite elem_of_foldl_see, elem_of_nil. naive_solver.
Qed.

Lemma first_seen_NoDup cs : NoDup (first_seen cs).
Proof. apply foldl_see_NoDup, NoDup_nil_2. Qed.
End first_seen.

Section tally.
Implicit Types (s : Counter) (es : list (Candidate * Qc)).
Implicit Types (ws : list Candidate) (c : Candidate).

Lemma counter_add_keys s c w : (counter_add s c w).*1 = see (s.*1) c.
Proof. apply counter_set_keys. Qed.

(** The keys of the mapping are the candidates of the entries that are
    not winners yet, in first-seen order. *)
Lemma tally_keys ws s es :
  (tally ws s es).*1 = foldl see (s.*1) (filter (λ c, c ∉ ws) (es.*1)).
Proof.
  unfold tally. revert s. induction es as [|[c w] es IH]; intros s; [done|].
  cbn [foldl]. rewrite IH, fmap_cons; simpl.
  destruct (decide (c ∈ ws)) as [Hc|Hc].
  - by rewrite filter_cons_False by naive_solver.
  - rewrite filter_cons_True by done. simpl. by rewrite counter_add_keys.
Qed.

Lemma tally_NoDup ws s es : NoDup s.*1 → NoDup (tally ws s es).*1.
Proof. intros. rewrite tally_keys. by apply foldl_see_NoDup. Qed.

Lemma elem_of_tally_keys ws es c :
  c ∈ (tally ws [] es).*1 ↔ (c ∉ ws) ∧ c ∈ es.*1.
Proof.
  rewrite tally_keys, elem_of_foldl_see, list_elem_of_filter.
  simpl. rewrite elem_of_nil. naive_solver.
Qed.

(** The value of a key is the sum of the weights of its entries. *)
Lemma tally_get ws s es c :
  c ∉ ws →
  counter_get (tally ws s es) c = (counter_get s c + entry_sum c es)%Qc.
Proof.
  intros Hc. unfold tally. revert s.
  induction es as [|[c' w] es IH]; intros s; simpl.
  - by rewrite Qcplus_0_r.
  - rewrite IH. destruct (decide (c' = c)) as [->|Hne].
    + rewrite decide_False by done. unfold counter_add.
      rewrite counter_get_set, decide_True by done.
      by rewrite Qcplus_assoc.
    + f_equal. case_decide; [done|]. unfold counter_add.
      by rewrite counter_get_set, decide_False.
Qed.
End tally.

(** The keys of a round's scoring mapping: the approved candidates that
    have not won yet, each once. *)
Lemma score_ballots_NoDup (h : heap) ballots ws :
  NoDup (score_ballots h ballots ws).*1.
Proof. rewrite score_ballots_tally. apply tally_NoDup, NoDup_nil_2. Qed.

Lemma elem_of_score_ballots (h : heap) ballots ws c :
  c ∈ (score_ballots h ballots ws).*1 ↔
  (c ∉ ws) ∧ ∃ l, l ∈ ballots ∧ c ∈ approved_candidates (h !!! l).
Proof.
  rewrite score_ballots_tally, elem_of_tally_keys, elem_of_approvals_fst.
  unfold deref. setoid_rewrite list_elem_of_fmap. naive_solver.
Qed.

(** The winner of a round is a key of its scoring mapping. *)
Lemma most_common_head_key s c v rest :
  most_common s = (c, v) :: rest → c ∈ s.*1.
Proof.
  intros (pre & post & -> & _)%most_common_head.
  rewrite fmap_app, fmap_cons, elem_of_app, elem_of_cons. auto.
Qed.

(** ** Winners *)

(** The winner of a round is approved on some listed ballot and has not
    won before. *)
Lemma election_round_winner ballots st st' :
  election_round ballots st = inr st' →
  ∃ w,
    st_winners st' = st_winners st ++ [w] ∧
    (w ∉ st_winners st) ∧
    ∃ l, l ∈ ballots ∧ w ∈ approved_candidates (st_heap st !!! l).
Proof.
  intros (w & v & rest & Hmc & ->)%election_round_inr. exists w.
  apply most_common_head_key, elem_of_score_ballots in Hmc. naive_solver.
Qed.

Lemma after_round_NoDup h ballots seats k st :
  after_round h ballots seats k st → NoDup (st_winners st).
Proof.
  revert st. induction k as [|k IH]; intros st.
  - intros ->%after_round_0. apply NoDup_nil_2.
  - intros (stk & _ & Hstk & (w & -> & Hw & _)%election_round_winner)%after_round_S.
    apply NoDup_app. split_and!; [by eapply IH| |apply NoDup_singleton].
    by intros x Hx ->%list_elem_of_singleton.
Qed.

(** C6: whenever [approval_election] returns, for [seats >= 0], the
    list of winners of the returned [Result] has exactly [seats] elements
    and no candidate occurs in it twice. *)
Theorem winners_length_NoDup h ballots seats h' res :
  (0 ≤ seats)%Z →
  approval_election h ballots seats = (h', inr res) →
  Z.of_nat (length (winners res)) = seats ∧ NoDup (winners res).
Proof.
  intros Hseats (st & Hst & _ & ->)%approval_election_returns; simpl.
  destruct (after_round_lengths _ _ _ _ _ Hst) as (-> & _). split; [lia|].
  by eapply after_round_NoDup.
Qed.

Lemma winners_length_NoDup_witness :
  Z.of_nat (length (winners (result_of (run spav_example 2)))) = 2%Z ∧
  NoDup (winners (result_of (run spav_example 2))).
Proof.
  apply (winners_length_NoDup
           (fresh_ballots spav_example).1 (fresh_ballots spav_example).2 2
           (run spav_example 2).1).
  - lia.
  - vm_compute. reflexivity.
Defined.

(** ** Recorded rounds *)

(** Round [i] (counting from 0) of a returned [Result], in terms of the
    loop variables that round started from. *)
Lemma approval_election_round h ballots seats h' res i r :
  approval_election h ballots seats = (h', inr res) →
  rounds res !! i = Some r →
  ∃ sti,
    after_round h ballots seats i sti ∧
    st_winners sti = take i (winners res) ∧
    winners res !! i = Some (winner r) ∧
    scores r = score_ballots (st_heap sti) ballots (st_winners sti) ∧
    weighted_votes r = sum_weights (st_heap sti) ballots ∧
    ∃ v rest, most_common (scores r) = (winner r, v) :: rest.
Proof.
  intros (st & Hst & _ & ->)%approval_election_returns Hr. simpl in *.
  by eapply after_round_round.
Qed.

Lemma foldl_weight_total a bs :
  foldl (λ acc b, (acc + weight b)%Qc) a bs = (a + total_weight bs)%Qc.
Proof.
  revert a. induction bs as [|b bs IH]; intros a; simpl.
  - by rewrite Qcplus_0_r.
  - by rewrite IH, Qcplus_assoc.
Qed.

Lemma sum_weights_total (h : heap) ballots :
  sum_weights h ballots = total_weight (deref h ballots).
Proof.
  by rewrite sum_weights_deref, foldl_weight_total, Qcplus_0_l.
Qed.

(** The ballots the list refers to, as round [i] finds them. *)
Lemma after_round_deref h ballots seats k st :
  refs_live h ballots →
  after_round h ballots seats k st →
  deref (st_heap st) ballots =
    if decide (k = 0) then deref h ballots
    else reweight_ballot (st_winners st) <$> deref h ballots.
Proof.
  intros Hlive Hst. case_decide as Hk.
  - subst k. by apply after_round_0 in Hst as ->.
  - unfold deref. rewrite <-list_fmap_compose.
    apply list_fmap_ext. intros j l Hl%list_elem_of_lookup_2. simpl.
    rewrite !lookup_total_alt, (after_round_heap _ _ _ k) by (done || lia).
    rewrite decide_True by done. by destruct (Hlive l Hl) as [b ->].
Qed.

(** C7: the keys of the score map of a recorded round are candidates
    that were not in the list of winners when the round started, i.e.
    none of them was elected in an earlier round. *)
Theorem scores_exclude_winners h ballots seats h' res i r c :
  approval_election h ballots seats = (h', inr res) →
  rounds res !! i = Some r →
  c ∈ (scores r).*1 →
  c ∉ take i (winners res).
Proof.
  intros Hres Hr Hc.
  destruct (approval_election_round _ _ _ _ _ _ _ Hres Hr)
    as (sti & _ & <- & _ & Hs & _).
  rewrite Hs in Hc. by apply elem_of_score_ballots in Hc as [? _].
Qed.

Lemma scores_exclude_winners_witness :
  B ∉ take 1 (winners (result_of (run spav_example 2))).
Proof.
  apply (scores_exclude_winners
           (fresh_ballots spav_example).1 (fresh_ballots spav_example).2 2
           (run spav_example 2).1 (result_of (run spav_example 2)) 1
           (round_of (result_of (run spav_example 2)) 1)).
  - vm_compute. reflexivity.
  - vm_compute. reflexivity.
  - vm_compute. left.
Defined.

(** ** Tie-break *)

(** The approved lists are never written: at every round the list refers
    to the same candidates in the same order. *)
Lemma after_round_approved h ballots seats k st l :
  after_round h ballots seats k st →
  approved_candidates (st_heap st !!! l) = approved_candidates (h !!! l).
Proof.
  intros Hst. destruct k as [|k].
  - by apply after_round_0 in Hst as ->.
  - rewrite !lookup_total_alt, (after_round_heap _ _ _ (S k)) by (done || lia).
    case_decide; [|done]. by destruct (h !! l).
Qed.

Lemma approvals_fst bs : (approvals bs).*1 = bs ≫= approved_candidates.
Proof.
  unfold approvals. induction bs as [|b bs IH]; [done|].
  rewrite !bind_cons, fmap_app, IH. f_equal.
  rewrite <-list_fmap_compose. apply list_fmap_id.
Qed.

Lemma approvals_fst_deref (h1 h2 : heap) ls :
  (∀ l, approved_candidates (h1 !!! l) = approved_candidates (h2 !!! l)) →
  (approvals (deref h1 ls)).*1 = (approvals (deref h2 ls)).*1.
Proof.
  intros Happ. rewrite !approvals_fst. unfold deref.
  induction ls as [|l ls IH]; [done|].
  by rewrite !fmap_cons, !bind_cons, IH, Happ.
Qed.

Lemma after_round_approvals h ballots seats k st :
  after_round h ballots seats k st →
  (approvals (deref (st_heap st) ballots)).*1 =
  (approvals (deref h ballots)).*1.
Proof.
  intros Hst. apply approvals_fst_deref. intros l.
  by eapply after_round_approved.
Qed.

(** ** Reweighting *)

(** Membership in a list that computes to an explicit one: one case per
    element. *)
Ltac each_elem H tac :=
  vm_compute in H;
  repeat (apply elem_of_cons in H as [->|H]; [tac|]);
  by apply elem_of_nil in H.

(** ** Frame *)

(** C9: a call that returns has written nothing but weights of listed
    ballots: the [Result] carries the list it was given, the heap holds
    the same objects, every object has the approval list it had, and the
    objects the list does not refer to are untouched. *)
Theorem only_weights_change h bs seats h' res :
  approval_election h bs seats = (h', inr res) →
  ballots res = bs ∧
  dom h' = dom h ∧
  (∀ l, approved_candidates <$> h' !! l = approved_candidates <$> h !! l) ∧
  (∀ l, l ∉ bs → h' !! l = h !! l).
Proof.
  intros (st & Hst & -> & ->)%approval_election_returns; simpl.
  assert (∀ l, st_heap st !! l = h !! l ∨
               l ∈ bs ∧
               st_heap st !! l = reweight_ballot (st_winners st) <$> h !! l)
    as Hlookup.
  { intros l. destruct (Z.to_nat seats) as [|k] eqn:Hk.
    - apply after_round_0 in Hst as ->. by left.
    - rewrite (after_round_heap _ _ _ (S k)) by (done || lia).
      case_decide; auto. }
  split_and!; [done| | |].
  - apply set_eq. intros l. rewrite !elem_of_dom.
    destruct (Hlookup l) as [->|[_ ->]]; [done|]. by rewrite fmap_is_Some.
  - intros l. destruct (Hlookup l) as [->|[_ ->]]; [done|].
    by destruct (h !! l).
  - intros l Hl. by destruct (Hlookup l) as [->|[? _]].
Qed.

Lemma only_weights_change_witness :
  ballots (result_of (run spav_example 2)) = (fresh_ballots spav_example).2 ∧
  dom (run spav_example 2).1 = dom (fresh_ballots spav_example).1 ∧
  (∀ l, approved_candidates <$> (run spav_example 2).1 !! l =
        approved_candidates <$> (fresh_ballots spav_example).1 !! l) ∧
  (∀ l, l ∉ (fresh_ballots spav_example).2 →
        (run spav_example 2).1 !! l = (fresh_ballots spav_example).1 !! l).
Proof.
  apply (only_weights_change _ _ 2).
  vm_compute. reflexivity.
Defined.

(** ** Running out of candidates *)

Lemma elem_of_approved_distinct (h : heap) ballots c :
  c ∈ approved_distinct h ballots ↔
  ∃ l, l ∈ ballots ∧ c ∈ approved_candidates (h !!! l).
Proof.
  unfold approved_distinct.
  rewrite elem_of_first_seen, elem_of_approvals_fst.
  unfold deref. setoid_rewrite list_elem_of_fmap. naive_solver.
Qed.

(** The scoring mapping is empty exactly when every approved candidate
    has won already. *)
Lemma score_ballots_nil (h : heap) ballots ws :
  score_ballots h ballots ws = [] ↔
  ∀ c, c ∈ approved_distinct h ballots → c ∈ ws.
Proof.
  split.
  - intros Hnil c [l Hl]%elem_of_approved_distinct.
    destruct (decide (c ∈ ws)) as [|Hc]; [done|].
    assert (c ∈ (score_ballots h ballots ws).*1) as Hin
      by (apply elem_of_score_ballots; eauto).
    rewrite Hnil in Hin. by apply elem_of_nil in Hin.
  - intros Hall.
    destruct (score_ballots h ballots ws) as [|[c v] s] eqn:Hs; [done|].
    assert (c ∈ (score_ballots h ballots ws).*1) as Hin
      by (rewrite Hs; left).
    apply elem_of_score_ballots in Hin as [Hc Hl].
    destruct Hc. by apply Hall, elem_of_approved_distinct.
Qed.

Lemma after_round_approved_distinct h ballots seats k st :
  after_round h ballots seats k st →
  approved_distinct (st_heap st) ballots = approved_distinct h ballots.
Proof.
  intros Hst. unfold approved_distinct.
  by rewrite (after_round_approvals h ballots seats k st Hst).
Qed.

(** Every winner is an approved candidate. *)
Lemma after_round_winners_approved h ballots seats k st w :
  after_round h ballots seats k st →
  w ∈ st_winners st → w ∈ approved_distinct h ballots.
Proof.
  revert st. induction k as [|k IH]; intros st.
  - intros ->%after_round_0 Hw. by apply elem_of_nil in Hw.
  - intros (stk & _ & Hstk & (w' & -> & _ & Hl)%election_round_winner)%after_round_S.
    intros [?| ->%list_elem_of_singleton]%elem_of_app; [by eapply IH|].
    rewrite <-(after_round_approved_distinct _ _ _ _ _ Hstk).
    by apply elem_of_approved_distinct.
Qed.

(** As long as fewer rounds have run than there are approved candidates,
    the next round finds a candidate to elect. *)
Lemma after_round_exists h ballots seats k :
  k ≤ Z.to_nat seats →
  k ≤ length (approved_distinct h ballots) →
  ∃ st, after_round h ballots seats k st.
Proof.
  induction k as [|k IH]; intros Hseats Hk.
  - exists (init_state h). by apply after_round_0.
  - destruct IH as [stk Hstk]; [lia..|].
    destruct (election_round ballots stk) as [e|st] eqn:Hround.
    + apply election_round_inl in Hround as [Hnil _].
      rewrite score_ballots_nil in Hnil.
      rewrite (after_round_approved_distinct _ _ _ _ _ Hstk) in Hnil.
      pose proof (NoDup_submseteq (approved_distinct h ballots) _
                    (first_seen_NoDup _) Hnil) as Hsub%submseteq_length.
      destruct (after_round_lengths _ _ _ _ _ Hstk) as (Hlen & _). lia.
    + exists st. apply after_round_S. by exists stk.
Qed.

(** Once as many rounds have run as there are approved candidates, all
    of them have won and the scoring mapping comes out empty. *)
Lemma after_round_exhausted h ballots seats st :
  after_round h ballots seats (length (approved_distinct h ballots)) st →
  score_ballots (st_heap st) ballots (st_winners st) = [].
Proof.
  intros Hst. apply score_ballots_nil.
  rewrite (after_round_approved_distinct _ _ _ _ _ Hst).
  destruct (after_round_lengths _ _ _ _ _ Hst) as (Hlen & _).
  assert (st_winners st ⊆+ approved_distinct h ballots) as Hsub.
  { apply NoDup_submseteq; [by eapply after_round_NoDup|].
    intros w. by eapply after_round_winners_approved. }
  apply submseteq_length_Permutation in Hsub; [|lia].
  intros c. by rewrite Hsub.
Qed.

(** The call returns when there are at least [seats] distinct approved
    candidates, and raises in the round after the last of them was
    elected otherwise. *)
Lemma approval_election_enough h ballots seats :
  Z.to_nat seats ≤ length (approved_distinct h ballots) →
  ∃ h' res, approval_election h ballots seats = (h', inr res).
Proof.
  intros Hd. destruct (after_round_exists h ballots seats (Z.to_nat seats))
    as [st Hst]; [done..|].
  eexists _, _. apply approval_election_returns. by exists st.
Qed.

Lemma approval_election_short h ballots seats :
  length (approved_distinct h ballots) < Z.to_nat seats →
  ∃ st,
    after_round h ballots seats (length (approved_distinct h ballots)) st ∧
    approval_election h ballots seats = (st_heap st, inl unpack_error).
Proof.
  intros Hd.
  destruct (after_round_exists h ballots seats
              (length (approved_distinct h ballots))) as [st Hst]; [lia..|].
  exists st. split; [done|]. apply approval_election_raises.
  exists (length (approved_distinct h ballots)), st. split_and!; [done..| |done].
  apply election_round_inl. split; [|done].
  by apply (after_round_exhausted h ballots seats).
Qed.

(** C1, as the code has it: when a round starts with seats unfilled and
    its scoring mapping comes out empty, the call ends with the
    [ValueError] of unpacking the empty [most_common()] list, leaving
    the heap as the completed rounds made it; no [Result] is returned.
    Zero ballots with [seats > 0] is the case of the first round. *)
Theorem empty_scores_raise h ballots seats k st :
  k < Z.to_nat seats →
  after_round h ballots seats k st →
  score_ballots (st_heap st) ballots (st_winners st) = [] →
  approval_election h ballots seats = (st_heap st, inl unpack_error) ∧
  approval_election h [] seats = (h, inl unpack_error).
Proof.
  intros Hk Hst Hnil.
  assert (approval_election h ballots seats = (st_heap st, inl unpack_error))
    as Hraise.
  { apply approval_election_raises. exists k, st.
    split_and!; [done..| |done]. by apply election_round_inl. }
  split; [done|].
  apply approval_election_raises. exists 0, (init_state h).
  split_and!; [lia|by apply after_round_0|done..].
Qed.

Lemma empty_scores_raise_witness :
  approval_election (fresh_ballots [[A; B]]).1 (fresh_ballots [[A; B]]).2 3 =
    (st_heap (state_of (run_rounds 2 (fresh_ballots [[A; B]]).2
                          (init_state (fresh_ballots [[A; B]]).1))),
     inl unpack_error) ∧
  approval_election (fresh_ballots [[A; B]]).1 [] 3 =
    ((fresh_ballots [[A; B]]).1, inl unpack_error).
Proof.
  apply (empty_scores_raise
           (fresh_ballots [[A; B]]).1 (fresh_ballots [[A; B]]).2 3 2).
  - vm_compute. lia.
  - split; [vm_compute; lia|vm_compute; reflexivity].
  - vm_compute. reflexivity.
Defined.

(** C1 as the documentation states it fails: with no ballots and one seat the first
    round's scoring mapping is empty, and what the call raises is a
    [ValueError], not an [InsufficientCandidates] condition. *)
Lemma no_InsufficientCandidates_condition :
  (0 < 1)%Z ∧
  score_ballots ∅ [] [] = [] ∧
  approval_election ∅ [] 1 = (∅, inl unpack_error) ∧
  exn_class unpack_error = "ValueError" ∧
  ¬ ∃ h' e,
      approval_election ∅ [] 1 = (h', inl e) ∧
      exn_class e = "InsufficientCandidates".
Proof.
  split_and!; [lia|done|by vm_compute|done|].
  intros (h' & e & He & Hclass).
  assert (approval_election ∅ [] 1 = (∅, inl unpack_error)) as He'
    by by vm_compute.
  rewrite He' in He. injection He as _ <-. discriminate Hclass.
Qed.

(** ** Failure leaves the new weights behind *)

Lemma Qc_of_nat_nonzero n : Qc_of_nat (1 + n) ≠ 0%Qc.
Proof.
  unfold Qc_of_nat. rewrite <-Z2Qc_inj_0. intros ?%Z2Qc_inj. lia.
Qed.

(** [1 / (1 + m)] is 1 only for [m = 0]. *)
Lemma new_weight_1 m : new_weight m = 1%Qc ↔ m = 0.
Proof.
  split; [|by intros ->].
  unfold new_weight. intros Hm.
  pose proof (Qcmult_div_r 1 _ (Qc_of_nat_nonzero m)) as Hinv.
  rewrite Hm, Qcmult_1_r in Hinv.
  unfold Qc_of_nat in Hinv. rewrite <-Z2Qc_inj_1 in Hinv.
  apply Z2Qc_inj in Hinv. lia.
Qed.

(** A ballot that lists a winner is counted at least once. *)
Lemma approved_winners_pos ws b w :
  w ∈ ws → w ∈ approved_candidates b → 1 ≤ approved_winners ws b.
Proof.
  intros Hws Hb. unfold approved_winners.
  assert (w ∈ filter (λ c, c ∈ ws) (approved_candidates b)) as Hin
    by by apply list_elem_of_filter.
  destruct (filter _ _); [by apply elem_of_nil in Hin|simpl; lia].
Qed.

(** C10: with fresh ballots that approve [d >= 1] distinct candidates
    and more than [d] seats, the first [d] rounds complete and rewrite
    the weights, round [d + 1] raises, and the call leaves the heap as
    round [d] made it: every listed ballot carries its reweighted weight,
    and at least one of them no longer has the weight it had before the
    call. *)
Theorem failure_not_atomic h bs seats :
  refs_live h bs →
  fresh h bs →
  1 ≤ length (approved_distinct h bs) →
  length (approved_distinct h bs) < Z.to_nat seats →
  ∃ st,
    after_round h bs seats (length (approved_distinct h bs)) st ∧
    approval_election h bs seats = (st_heap st, inl unpack_error) ∧
    (∀ l b, l ∈ bs → h !! l = Some b →
            st_heap st !! l = Some (reweight_ballot (st_winners st) b)) ∧
    ∃ l, l ∈ bs ∧ weight (st_heap st !!! l) ≠ weight (h !!! l).
Proof.
  intros Hlive Hfresh Hd Hseats.
  destruct (approval_election_short h bs seats Hseats) as (st & Hst & Hraise).
  exists st. split_and!; [done..| |].
  - intros l b Hl Hb.
    rewrite (after_round_heap _ _ _ _ _ l Hst Hd).
    by rewrite decide_True, Hb by done.
  - destruct (after_round_lengths _ _ _ _ _ Hst) as (Hlen & _).
    destruct (st_winners st) as [|w ws] eqn:Hws; [simpl in Hlen; lia|].
    assert (w ∈ st_winners st) as Hw by (rewrite Hws; left).
    pose proof (after_round_winners_approved _ _ _ _ _ _ Hst Hw)
      as (l & Hl & Happ)%elem_of_approved_distinct.
    exists l. split; [done|].
    destruct (Hlive l Hl) as [b Hb].
    rewrite (Hfresh l Hl), (lookup_total_alt (st_heap st)).
    rewrite (after_round_heap _ _ _ _ _ l Hst Hd), decide_True, Hb by done.
    simpl. rewrite new_weight_1.
    rewrite lookup_total_alt, Hb in Happ. simpl in Happ.
    pose proof (approved_winners_pos _ _ _ Hw Happ). lia.
Qed.

Lemma failure_not_atomic_witness :
  ∃ st,
    after_round (fresh_ballots [[A; B]]).1 (fresh_ballots [[A; B]]).2 3
      (length (approved_distinct (fresh_ballots [[A; B]]).1
                                 (fresh_ballots [[A; B]]).2)) st ∧
    approval_election (fresh_ballots [[A; B]]).1 (fresh_ballots [[A; B]]).2 3 =
      (st_heap st, inl unpack_error) ∧
    (∀ l b, l ∈ (fresh_ballots [[A; B]]).2 →
            (fresh_ballots [[A; B]]).1 !! l = Some b →
            st_heap st !! l = Some (reweight_ballot (st_winners st) b)) ∧
    ∃ l, l ∈ (fresh_ballots [[A; B]]).2 ∧
         weight (st_heap st !!! l) ≠
         weight ((fresh_ballots [[A; B]]).1 !!! l).
Proof.
  apply (failure_not_atomic
           (fresh_ballots [[A; B]]).1 (fresh_ballots [[A; B]]).2 3).
  - intros l Hl. each_elem Hl ltac:(by eexists).
  - intros l Hl. each_elem Hl ltac:(by vm_compute).
  - vm_compute. lia.
  - vm_compute. lia.
Defined.

(** ** Determinism *)

Lemma election_round_same_view bs1 bs2 st1 st2 :
  refs_live (st_heap st1) bs1 → refs_live (st_heap st2) bs2 →
  same_view bs1 bs2 st1 st2 →
  match election_round bs1 st1, election_round bs2 st2 with
  | inl e1, inl e2 => e1 = e2
  | inr st1', inr st2' =>
      refs_live (st_heap st1') bs1 ∧ refs_live (st_heap st2') bs2 ∧
      same_view bs1 bs2 st1' st2'
  | _, _ => False
  end.
Proof.
  intros Hl1 Hl2 (Hw & Hr & Hd). unfold election_round.
  rewrite !score_ballots_deref, !sum_weights_deref, <-Hw, <-Hr, <-Hd.
  destruct (most_common _) as [|[w v] rest]; [done|]. simpl.
  split_and!; try by apply reweight_ballots_live.
  split_and!; [done..|]. simpl.
  by rewrite !deref_reweight_ballots, Hd.
Qed.

Lemma election_loop_same_view bs1 bs2 seats st1 st2 :
  refs_live (st_heap st1) bs1 → refs_live (st_heap st2) bs2 →
  same_view bs1 bs2 st1 st2 →
  same_outcome bs1 bs2
    (election_loop bs1 seats st1) (election_loop bs2 seats st2).
Proof.
  remember (Z.to_nat (seats - Z.of_nat (length (st_winners st1)))) as n eqn:Hn.
  revert st1 st2 Hn. induction n as [|n IH]; intros st1 st2 Hn Hl1 Hl2 Hv;
    pose proof Hv as (Hw & Hr & Hd);
    rewrite !election_loop_eq, <-Hw; case_decide; try lia.
  - unfold same_outcome; simpl. by rewrite Hr.
  - pose proof (election_round_same_view _ _ _ _ Hl1 Hl2 Hv) as Hround.
    destruct (election_round bs1 st1) as [e1|st1'] eqn:E1,
             (election_round bs2 st2) as [e2|st2'] eqn:E2; try done.
    destruct Hround as (? & ? & ?). apply IH; [|done..].
    apply election_round_length in E1. lia.
Qed.

(** C5: two calls with the same [seats] on lists that stand for the same
    ballots, in the same order, end the same way: the same winners in
    the same order, the same rounds (score maps and [weighted_votes]
    included) and the same ballots, weights included, behind the two
    lists afterwards, or the same exception.  It does not matter where
    the objects live, nor whether a list refers to one object more than
    once. *)
Theorem determinism h1 bs1 h2 bs2 seats :
  refs_live h1 bs1 →
  refs_live h2 bs2 →
  deref h1 bs1 = deref h2 bs2 →
  same_outcome bs1 bs2
    (approval_election h1 bs1 seats) (approval_election h2 bs2 seats).
Proof.
  intros Hl1 Hl2 Hd. by apply election_loop_same_view.
Qed.

Lemma determinism_witness :
  same_outcome (fresh_ballots spav_example).2 shared_ballots
    (approval_election (fresh_ballots spav_example).1
                       (fresh_ballots spav_example).2 2)
    (approval_election shared_heap shared_ballots 2).
Proof.
  apply determinism.
  - intros l Hl. each_elem Hl ltac:(by eexists).
  - intros l Hl. each_elem Hl ltac:(by eexists).
  - vm_compute. reflexivity.
Defined.

(** ** One seat: plain approval voting *)

Section first_max.
Context (f : Candidate → nat).
Implicit Types (cs : list Candidate) (c w : Candidate).

Lemma first_max_elem cs c : first_max f cs = Some c → c ∈ cs.
Proof.
  revert c. induction cs as [|c0 cs IH]; intros c; simpl; [done|].
  destruct (first_max f cs) as [c'|].
  - case_decide; intros [= <-]; [right; by apply IH|left].
  - intros [= <-]. left.
Qed.

Lemma first_max_intro pre w post :
  (∀ c, c ∈ pre → f c < f w) →
  (∀ c, c ∈ post → f c ≤ f w) →
  first_max f (pre ++ w :: post) = Some w.
Proof.
  intros Hpre Hpost. induction pre as [|c pre IH]; simpl.
  - destruct (first_max f post) as [c'|] eqn:Hc'; [|done].
    apply first_max_elem, Hpost in Hc'.
    by rewrite decide_False by lia.
  - rewrite IH by (intros; apply Hpre; by right).
    rewrite decide_True; [done|]. apply Hpre. left.
Qed.
End first_max.

Lemma first_max_ext f g cs :
  (∀ c, c ∈ cs → f c = g c) → first_max f cs = first_max g cs.
Proof.
  induction cs as [|c cs IH]; intros Hfg; simpl; [done|].
  rewrite IH by (intros; apply Hfg; by right).
  destruct (first_max g cs) as [c'|] eqn:Hc'; [|done].
  rewrite (Hfg c) by left.
  by rewrite (Hfg c') by (right; by eapply first_max_elem).
Qed.

Lemma Qc_of_nat_S n : Qc_of_nat (S n) = (1 + Qc_of_nat n)%Qc.
Proof.
  unfold Qc_of_nat.
  by rewrite Nat2Z.inj_succ, <-Z.add_1_l, Z2Qc_inj_add, Z2Qc_inj_1.
Qed.

Lemma Qc_of_nat_lt n m : (Qc_of_nat n < Qc_of_nat m)%Qc ↔ n < m.
Proof. unfold Qc_of_nat. rewrite <-Z2Qc_inj_lt. lia. Qed.

Lemma Qc_of_nat_le n m : (Qc_of_nat n ≤ Qc_of_nat m)%Qc ↔ n ≤ m.
Proof. unfold Qc_of_nat. rewrite <-Z2Qc_inj_le. lia. Qed.

(** With every weight at 1 the score of a candidate is the number of its
    entries. *)
Lemma entry_sum_ones c (es : list (Candidate * Qc)) :
  (∀ e, e ∈ es → e.2 = 1%Qc) →
  entry_sum c es = Qc_of_nat (length (filter (λ c', c' = c) (es.*1))).
Proof.
  induction es as [|[c' w] es IH]; intros Hes; csimpl;
    [symmetry; apply Z2Qc_inj_0|].
  rewrite IH by (intros; apply Hes; by right).
  pose proof (Hes (c', w) ltac:(left)) as Hw. simpl in Hw. subst w.
  case_decide.
  - rewrite filter_cons_True by done. simpl. by rewrite Qc_of_nat_S.
  - by rewrite filter_cons_False by done.
Qed.

Lemma approvals_fresh (h : heap) ballots e :
  fresh h ballots → e ∈ approvals (deref h ballots) → e.2 = 1%Qc.
Proof.
  intros Hfresh. destruct e as [c w].
  intros (b & (l & -> & Hl)%list_elem_of_fmap & _ & ->)%elem_of_approvals.
  by apply Hfresh.
Qed.

Lemma filter_not_elem_of_nil (cs : list Candidate) :
  filter (λ c, c ∉ []) cs = cs.
Proof.
  induction cs as [|c cs IH]; [done|].
  rewrite filter_cons_True by apply not_elem_of_nil. by rewrite IH.
Qed.

(** The first round of a call on fresh ballots. *)
Lemma first_round_scores (h : heap) ballots c v :
  fresh h ballots →
  (c, v) ∈ score_ballots h ballots [] →
  v = Qc_of_nat (approval_entries (deref h ballots) c).
Proof.
  intros Hfresh Hin.
  rewrite <-(counter_get_elem_of _ _ _ (score_ballots_NoDup h ballots []) Hin).
  rewrite score_ballots_tally, tally_get by apply not_elem_of_nil.
  simpl. rewrite Qcplus_0_l, entry_sum_ones, approvals_fst; [done|].
  intros e. by apply approvals_fresh.
Qed.

Lemma first_round_keys (h : heap) ballots :
  (score_ballots h ballots []).*1 =
  first_seen (deref h ballots ≫= approved_candidates).
Proof.
  rewrite score_ballots_tally, tally_keys, filter_not_elem_of_nil.
  by rewrite approvals_fst.
Qed.

Lemma filter_eq_not_elem_of c (cs : list Candidate) :
  c ∉ cs → filter (λ c', c' = c) cs = [].
Proof.
  induction cs as [|c0 cs IH]; [done|].
  intros [? ?]%not_elem_of_cons.
  rewrite filter_cons_False by done. auto.
Qed.

Lemma filter_eq_NoDup c (cs : list Candidate) :
  NoDup cs → c ∈ cs → length (filter (λ c', c' = c) cs) = 1.
Proof.
  induction 1 as [|c0 cs Hc0 _ IH]; [by intros ?%elem_of_nil|].
  destruct (decide (c0 = c)) as [->|Hne]; intros Hc.
  - rewrite filter_cons_True by done.
    by rewrite filter_eq_not_elem_of by done.
  - rewrite filter_cons_False by done.
    apply IH. by apply elem_of_cons in Hc as [?|?].
Qed.

(** On ballots that list no candidate twice, entries count ballots. *)
Lemma approval_entries_NoDup bs c :
  Forall (λ b, NoDup (approved_candidates b)) bs →
  approval_entries bs c = approval_count bs c.
Proof.
  unfold approval_entries, approval_count.
  induction 1 as [|b bs Hb _ IH]; [done|].
  rewrite bind_cons, filter_app, length_app, IH.
  destruct (decide (c ∈ approved_candidates b)) as [Hc|Hc].
  - rewrite filter_cons_True by done. simpl.
    by rewrite filter_eq_NoDup.
  - rewrite filter_cons_False by done.
    by rewrite filter_eq_not_elem_of.
Qed.

(** C4, as the code has it: with one seat and fresh ballots, a call that
    returns elects the candidate with the most approval entries, the
    first-seen one among several with the most; an entry is one
    occurrence of the candidate in one approval list.  When no ballot
    lists a candidate twice, entries count ballots, and the winner is the
    candidate with the maximum raw approval count.  The call returns as
    soon as some listed ballot approves some candidate. *)
Theorem single_seat_winner h bs :
  fresh h bs →
  (∀ h' res,
     approval_election h bs 1 = (h', inr res) →
     ∃ w,
       winners res = [w] ∧
       first_max (approval_entries (deref h bs))
                 (first_seen (deref h bs ≫= approved_candidates)) = Some w ∧
       (Forall (λ b, NoDup (approved_candidates b)) (deref h bs) →
        max_approval_winner (deref h bs) = Some w)) ∧
  (deref h bs ≫= approved_candidates ≠ [] →
   ∃ h' res, approval_election h bs 1 = (h', inr res)).
Proof.
  intros Hfresh. split.
  - intros h' res (st & Hst & _ & ->)%approval_election_returns. simpl.
    change (Z.to_nat 1) with 1 in Hst.
    apply after_round_S in Hst as (st0 & _ & ->%after_round_0 & Hround).
    apply election_round_inr in Hround as (w & v & rest & Hmc & ->).
    simpl in *. exists w. split; [done|].
    apply most_common_head in Hmc as (pre & post & Hs & Hpre & Hpost).
    assert (∀ c x, (c, x) ∈ score_ballots h bs [] →
                   x = Qc_of_nat (approval_entries (deref h bs) c)) as Hval
      by (intros; by apply first_round_scores).
    assert (first_max (approval_entries (deref h bs))
              (first_seen (deref h bs ≫= approved_candidates)) = Some w)
      as Hmax.
    { rewrite <-first_round_keys, Hs, fmap_app, fmap_cons. simpl.
      rewrite Hs in Hval.
      assert (v = Qc_of_nat (approval_entries (deref h bs) w)) as Hv.
      { apply Hval. apply elem_of_app. right. left. }
      apply first_max_intro.
      - intros c ([c' x] & -> & Hin)%list_elem_of_fmap. simpl.
        apply Qc_of_nat_lt. rewrite <-Hv, <-(Hval c' x).
        + by apply (Hpre (c', x)).
        + apply elem_of_app. by left.
      - intros c ([c' x] & -> & Hin)%list_elem_of_fmap. simpl.
        apply Qc_of_nat_le. rewrite <-Hv, <-(Hval c' x).
        + by apply (Hpost (c', x)).
        + apply elem_of_app. right. by right. }
    split; [done|]. intros Hnodup. unfold max_approval_winner.
    rewrite <-Hmax. symmetry. apply first_max_ext. intros c _.
    by apply approval_entries_NoDup.
  - intros Hne. apply approval_election_enough.
    change (Z.to_nat 1) with 1. unfold approved_distinct.
    rewrite approvals_fst.
    destruct (deref h bs ≫= approved_candidates) as [|c cs] eqn:Hcs; [done|].
    assert (c ∈ first_seen (c :: cs)) as Hin
      by (apply elem_of_first_seen; left).
    destruct (first_seen (c :: cs)); [by apply elem_of_nil in Hin|simpl; lia].
Qed.

Lemma single_seat_winner_witness :
  ∃ w,
    winners (result_of (run plain_example 1)) = [w] ∧
    first_max
      (approval_entries (deref (fresh_ballots plain_example).1
                               (fresh_ballots plain_example).2))
      (first_seen (deref (fresh_ballots plain_example).1
                         (fresh_ballots plain_example).2
                     ≫= approved_candidates)) = Some w ∧
    (Forall (λ b, NoDup (approved_candidates b))
            (deref (fresh_ballots plain_example).1
                   (fresh_ballots plain_example).2) →
     max_approval_winner (deref (fresh_ballots plain_example).1
                                (fresh_ballots plain_example).2) = Some w).
Proof.
  assert (fresh (fresh_ballots plain_example).1 (fresh_ballots plain_example).2)
    as Hfresh.
  { intros l Hl. each_elem Hl ltac:(by vm_compute). }
  apply (proj1 (single_seat_winner _ _ Hfresh) (run plain_example 1).1).
  vm_compute. reflexivity.
Defined.

(** C4 as the documentation states it fails on a ballot that lists a
    candidate twice:
    of the ballots [B] and [A, A], one approves A and one approves B, so
    the maximum raw approval count, ties broken by first-seen order,
    selects B; the call elects A, whose score is 2. *)
Lemma single_seat_counts_entries :
  deref (fresh_ballots repeated_example).1 (fresh_ballots repeated_example).2 =
    [mkBallot [B] 1%Qc; mkBallot [A; A] 1%Qc] ∧
  (run repeated_example 1).2 = inr (result_of (run repeated_example 1)) ∧
  winners (result_of (run repeated_example 1)) = [A] ∧
  max_approval_winner
    (deref (fresh_ballots repeated_example).1
           (fresh_ballots repeated_example).2) = Some B ∧
  A ≠ B.
Proof. split_and!; by vm_compute. Qed.

(** * Further properties of the election *)

(** ** Which calls return *)

(** X1: on fresh ballots the call returns a [Result] exactly when there
    are at least [seats] distinct candidates approved on the listed
    ballots, and raises the [ValueError] of unpacking the empty
    [most_common()] list exactly when there are fewer. *)
Theorem returns_iff_enough_candidates h bs seats :
  fresh h bs →
  ((∃ h' res, approval_election h bs seats = (h', inr res)) ↔
   Z.to_nat seats ≤ length (approved_distinct h bs)) ∧
  ((∃ h', approval_election h bs seats = (h', inl unpack_error)) ↔
   length (approved_distinct h bs) < Z.to_nat seats).
Proof.
  intros _.
  destruct (decide (Z.to_nat seats ≤ length (approved_distinct h bs)))
    as [Hd|Hd].
  - destruct (approval_election_enough h bs seats Hd) as (h1 & res & Hres).
    split; (split; [|by (lia || eauto)]).
    + done.
    + intros (h' & He). congruence.
  - destruct (approval_election_short h bs seats) as (st & _ & Hraise);
      [lia|].
    split; (split; [|by (lia || eauto)]).
    + intros (h' & res & Hres). congruence.
    + lia.
Qed.

Lemma returns_iff_enough_candidates_witness :
  ((∃ h' res,
      approval_election (fresh_ballots spav_example).1
                        (fresh_ballots spav_example).2 3 = (h', inr res)) ↔
   Z.to_nat 3 ≤ length (approved_distinct (fresh_ballots spav_example).1
                                           (fresh_ballots spav_example).2)) ∧
  ((∃ h',
      approval_election (fresh_ballots spav_example).1
                        (fresh_ballots spav_example).2 3 =
        (h', inl unpack_error)) ↔
   length (approved_distinct (fresh_ballots spav_example).1
                             (fresh_ballots spav_example).2) < Z.to_nat 3).
Proof.
  apply (returns_iff_enough_candidates
           (fresh_ballots spav_example).1 (fresh_ballots spav_example).2 3).
  intros l Hl. each_elem Hl ltac:(by vm_compute).
Defined.

(** X2: with [seats <= 0], negative values included, the loop body never
    runs: the call returns at once with no winners and no rounds, and
    writes nothing. *)
Theorem no_seats_no_rounds h bs seats :
  (seats ≤ 0)%Z →
  approval_election h bs seats = (h, inr (mkResult [] [] bs)).
Proof.
  intros Hseats. unfold approval_election.
  rewrite election_loop_eq. simpl. case_decide; [lia|done].
Qed.

Lemma no_seats_no_rounds_witness :
  approval_election (fresh_ballots spav_example).1
                    (fresh_ballots spav_example).2 (-1) =
    ((fresh_ballots spav_example).1,
     inr (mkResult [] [] (fresh_ballots spav_example).2)).
Proof. apply no_seats_no_rounds. lia. Defined.

Lemma after_round_seats h bs seats seats' k st :
  after_round h bs seats' k st → k ≤ Z.to_nat seats →
  after_round h bs seats k st.
Proof. intros [_ ?] ?. by split. Qed.

(** X3: asking for fewer seats gives a prefix: when the call for [s']
    seats returns, so does the call for any [s <= s'], and its winners
    and rounds are the first [s] winners and rounds of the larger call. *)
Theorem fewer_seats_prefix h bs s s' h' res' :
  (0 ≤ s ≤ s')%Z →
  approval_election h bs s' = (h', inr res') →
  ∃ h1 res,
    approval_election h bs s = (h1, inr res) ∧
    winners res = take (Z.to_nat s) (winners res') ∧
    rounds res = take (Z.to_nat s) (rounds res').
Proof.
  intros Hs (st' & Hst' & _ & ->)%approval_election_returns.
  destruct (after_round_prefix h bs s' (Z.to_nat s) (Z.to_nat s') st')
    as (st & Hst & Hw & Hr); [lia|done|].
  exists (st_heap st), (mkResult (st_winners st) (st_rounds st) bs).
  split; [|done]. apply approval_election_returns. exists st.
  split; [|done]. by eapply after_round_seats.
Qed.

Lemma fewer_seats_prefix_witness :
  ∃ h1 res,
    approval_election (fresh_ballots spav_example).1
                      (fresh_ballots spav_example).2 1 = (h1, inr res) ∧
    winners res = take (Z.to_nat 1) (winners (result_of (run spav_example 2))) ∧
    rounds res = take (Z.to_nat 1) (rounds (result_of (run spav_example 2))).
Proof.
  apply (fewer_seats_prefix _ _ 1 2 (run spav_example 2).1).
  - lia.
  - vm_compute. reflexivity.
Defined.

(** ** What a [Result] holds *)

(** X4: a returned [Result] has one round per winner, in the same order:
    the winner recorded in round [i] is the [i]-th element of
    [winners]. *)
Theorem rounds_record_winners h bs seats h' res :
  approval_election h bs seats = (h', inr res) →
  winner <$> rounds res = winners res ∧
  length (rounds res) = Z.to_nat seats.
Proof.
  intros (st & Hst & _ & ->)%approval_election_returns. simpl.
  destruct (after_round_lengths _ _ _ _ _ Hst) as (_ & ? & ?). done.
Qed.

Lemma rounds_record_winners_witness :
  winner <$> rounds (result_of (run spav_example 2)) =
    winners (result_of (run spav_example 2)) ∧
  length (rounds (result_of (run spav_example 2))) = Z.to_nat 2.
Proof.
  apply (rounds_record_winners
           (fresh_ballots spav_example).1 (fresh_ballots spav_example).2 2
           (run spav_example 2).1).
  vm_compute. reflexivity.
Defined.

(** X5: every winner is a candidate that some listed ballot approves. *)
Theorem winners_are_approved h bs seats h' res w :
  approval_election h bs seats = (h', inr res) →
  w ∈ winners res →
  ∃ l, l ∈ bs ∧ w ∈ approved_candidates (h !!! l).
Proof.
  intros (st & Hst & _ & ->)%approval_election_returns Hw. simpl in Hw.
  apply elem_of_approved_distinct.
  by eapply after_round_winners_approved.
Qed.

Lemma winners_are_approved_witness :
  ∃ l, l ∈ (fresh_ballots spav_example).2 ∧
       B ∈ approved_candidates ((fresh_ballots spav_example).1 !!! l).
Proof.
  apply (winners_are_approved _ _ 2 (run spav_example 2).1
           (result_of (run spav_example 2))).
  - vm_compute. reflexivity.
  - vm_compute. right. left.
Defined.

Lemma total_weight_ones bs :
  (∀ b, b ∈ bs → weight b = 1%Qc) →
  total_weight bs = Qc_of_nat (length bs).
Proof.
  induction bs as [|b bs IH]; intros Hbs; simpl;
    [symmetry; apply Z2Qc_inj_0|].
  rewrite IH by (intros; apply Hbs; by right).
  rewrite (Hbs b) by left. by rewrite Qc_of_nat_S.
Qed.

(** X6: on fresh ballots the first round's score of a candidate is the
    number of approval entries naming it, the keys of the score map are
    exactly the approved candidates, and [weighted_votes] is the number
    of ballots. *)
Theorem first_round_counts h bs seats h' res r :
  fresh h bs →
  approval_election h bs seats = (h', inr res) →
  rounds res !! 0 = Some r →
  (∀ c v, (c, v) ∈ scores r →
          v = Qc_of_nat (approval_entries (deref h bs) c)) ∧
  (∀ c, c ∈ (scores r).*1 ↔ c ∈ deref h bs ≫= approved_candidates) ∧
  weighted_votes r = Qc_of_nat (length bs).
Proof.
  intros Hfresh Hres Hr.
  destruct (approval_election_round _ _ _ _ _ _ _ Hres Hr)
    as (st0 & ->%after_round_0 & _ & _ & Hs & Hv & _).
  simpl in Hs, Hv. split_and!.
  - intros c v Hin. rewrite Hs in Hin. by apply first_round_scores.
  - intros c. by rewrite Hs, first_round_keys, elem_of_first_seen.
  - rewrite Hv, sum_weights_total, total_weight_ones.
    + unfold deref. by rewrite length_fmap.
    + intros b (l & -> & Hl)%list_elem_of_fmap. by apply Hfresh.
Qed.

Lemma first_round_counts_witness :
  (∀ c v, (c, v) ∈ scores (round_of (result_of (run plain_example 1)) 0) →
          v = Qc_of_nat
                (approval_entries
                   (deref (fresh_ballots plain_example).1
                          (fresh_ballots plain_example).2) c)) ∧
  (∀ c, c ∈ (scores (round_of (result_of (run plain_example 1)) 0)).*1 ↔
        c ∈ deref (fresh_ballots plain_example).1
                  (fresh_ballots plain_example).2 ≫= approved_candidates) ∧
  weighted_votes (round_of (result_of (run plain_example 1)) 0) =
    Qc_of_nat (length (fresh_ballots plain_example).2).
Proof.
  apply (first_round_counts _ _ 1 (run plain_example 1).1
           (result_of (run plain_example 1))).
  - intros l Hl. each_elem Hl ltac:(by vm_compute).
  - vm_compute. reflexivity.
  - vm_compute. reflexivity.
Defined.

(** ** What a call that raises leaves behind *)

(** However many rounds have run, the heap holds the same objects with
    the same approval lists, and objects the list does not refer to are
    as they were. *)
Lemma after_round_frame h bs seats k st :
  after_round h bs seats k st →
  dom (st_heap st) = dom h ∧
  (∀ l, approved_candidates <$> st_heap st !! l =
        approved_candidates <$> h !! l) ∧
  (∀ l, l ∉ bs → st_heap st !! l = h !! l).
Proof.
  intros Hst.
  assert (∀ l, st_heap st !! l = h !! l ∨
               l ∈ bs ∧
               st_heap st !! l = reweight_ballot (st_winners st) <$> h !! l)
    as Hlookup.
  { intros l. destruct k as [|k].
    - apply after_round_0 in Hst as ->. by left.
    - rewrite (after_round_heap _ _ _ (S k)) by (done || lia).
      case_decide; auto. }
  split_and!.
  - apply set_eq. intros l. rewrite !elem_of_dom.
    destruct (Hlookup l) as [->|[_ ->]]; [done|]. by rewrite fmap_is_Some.
  - intros l. destruct (Hlookup l) as [->|[_ ->]]; [done|].
    by destruct (h !! l).
  - intros l Hl. by destruct (Hlookup l) as [->|[? _]].
Qed.

(** X7: a call that raises has, like one that returns, written nothing
    but weights of listed ballots: the heap holds the same objects, with
    the approval lists they had, and unlisted objects are untouched. *)
Theorem raise_writes_only_weights h bs seats h' e :
  approval_election h bs seats = (h', inl e) →
  dom h' = dom h ∧
  (∀ l, approved_candidates <$> h' !! l = approved_candidates <$> h !! l) ∧
  (∀ l, l ∉ bs → h' !! l = h !! l).
Proof.
  intros (k & st & _ & Hst & _ & ->)%approval_election_raises.
  by eapply after_round_frame.
Qed.

Lemma raise_writes_only_weights_witness :
  dom (run [[A; B]] 3).1 = dom (fresh_ballots [[A; B]]).1 ∧
  (∀ l, approved_candidates <$> (run [[A; B]] 3).1 !! l =
        approved_candidates <$> (fresh_ballots [[A; B]]).1 !! l) ∧
  (∀ l, l ∉ (fresh_ballots [[A; B]]).2 →
        (run [[A; B]] 3).1 !! l = (fresh_ballots [[A; B]]).1 !! l).
Proof.
  apply (raise_writes_only_weights _ _ 3 _ unpack_error).
  vm_compute. reflexivity.
Defined.

(** ** Weights and scores stay in range *)

Lemma Qc_of_nat_pos n : (0 < Qc_of_nat (1 + n))%Qc.
Proof. unfold Qc_of_nat. rewrite <-Z2Qc_inj_0, <-Z2Qc_inj_lt. lia. Qed.

(** [1 / (1 + m)] lies in (0, 1]. *)
Lemma new_weight_range m : (0 < new_weight m)%Qc ∧ (new_weight m ≤ 1)%Qc.
Proof.
  unfold new_weight, Qcdiv. rewrite Qcmult_1_l.
  pose proof (Qc_of_nat_pos m) as Hpos. split; [by apply Qcinv_pos|].
  apply (Qcmult_le_mono_pos_r _ _ (Qc_of_nat (1 + m))); [done|].
  rewrite Qcmult_inv_l, Qcmult_1_l by by apply Qc_of_nat_nonzero.
  unfold Qc_of_nat. rewrite <-Z2Qc_inj_1, <-Z2Qc_inj_le. lia.
Qed.

(** No scoring mapping is empty while some listed ballot approves a
    candidate and nobody has won. *)
Lemma first_round_completes h bs seats :
  (1 ≤ seats)%Z →
  (∃ l, l ∈ bs ∧ approved_candidates (h !!! l) ≠ []) →
  ∃ st, after_round h bs seats 1 st.
Proof.
  intros Hseats (l & Hl & Happ).
  apply after_round_exists; [lia|].
  destruct (approved_candidates (h !!! l)) as [|c cs] eqn:Hcs; [done|].
  assert (c ∈ approved_distinct h bs) as Hin.
  { apply elem_of_approved_distinct. exists l. rewrite Hcs. split; [done|left]. }
  destruct (approved_distinct h bs); [by apply elem_of_nil in Hin|simpl; lia].
Qed.

(** X8: on fresh ballots, once a round has completed every listed
    ballot has a weight in (0, 1], also when the call ends by raising. *)
Theorem weights_in_unit_interval h bs seats h' out l :
  fresh h bs →
  approval_election h bs seats = (h', out) →
  (1 ≤ seats)%Z →
  (∃ l0, l0 ∈ bs ∧ approved_candidates (h !!! l0) ≠ []) →
  l ∈ bs →
  is_Some (h !! l) →
  (0 < weight (h' !!! l))%Qc ∧ (weight (h' !!! l) ≤ 1)%Qc.
Proof.
  intros _ Hcall Hseats Happ Hl [b Hb].
  assert (∃ k st, 1 ≤ k ∧ after_round h bs seats k st ∧ h' = st_heap st)
    as (k & st & Hk & Hst & ->).
  { destruct out as [e|res].
    - apply approval_election_raises in Hcall
        as (k & st & _ & Hst & Hround & ->).
      exists k, st. split_and!; [|done..].
      destruct k as [|k]; [|lia].
      apply after_round_0 in Hst as ->.
      destruct (first_round_completes h bs seats Hseats Happ)
        as (st1 & (st0 & _ & ->%after_round_0 & Hst1)%after_round_S).
      congruence.
    - apply approval_election_returns in Hcall as (st & Hst & -> & _).
      exists (Z.to_nat seats), st. split_and!; [lia|done..]. }
  rewrite lookup_total_alt, (after_round_heap _ _ _ _ _ l Hst Hk).
  rewrite decide_True, Hb by done. simpl. apply new_weight_range.
Qed.

Lemma weights_in_unit_interval_witness :
  (0 < weight ((run [[A; B]] 3).1 !!! 1%positive))%Qc ∧
  (weight ((run [[A; B]] 3).1 !!! 1%positive) ≤ 1)%Qc.
Proof.
  apply (weights_in_unit_interval
           (fresh_ballots [[A; B]]).1 (fresh_ballots [[A; B]]).2 3
           _ (run [[A; B]] 3).2).
  - intros l Hl. each_elem Hl ltac:(by vm_compute).
  - vm_compute. reflexivity.
  - lia.
  - exists 1%positive. split; [vm_compute; left|by vm_compute].
  - vm_compute. left.
  - by eexists.
Defined.

Section entry_sum.
Implicit Types (es : list (Candidate * Qc)) (bs : list Ballot).

Lemma entry_sum_app c es1 es2 :
  entry_sum c (es1 ++ es2) = (entry_sum c es1 + entry_sum c es2)%Qc.
Proof.
  induction es1 as [|[c' w] es1 IH]; simpl; [by rewrite Qcplus_0_l|].
  rewrite IH. case_decide; [by rewrite Qcplus_assoc|done].
Qed.

Lemma entry_sum_nonneg c es :
  (∀ e, e ∈ es → (0 ≤ e.2)%Qc) → (0 ≤ entry_sum c es)%Qc.
Proof.
  induction es as [|[c' w] es IH]; intros Hes; simpl; [done|].
  assert (0 ≤ entry_sum c es)%Qc by (apply IH; intros; apply Hes; by right).
  case_decide; [|done].
  apply Qcplus_nonneg_nonneg; [|done]. by apply (Hes (c', w)); left.
Qed.

Lemma entry_sum_pos c es :
  (∀ e, e ∈ es → (0 < e.2)%Qc) → c ∈ es.*1 → (0 < entry_sum c es)%Qc.
Proof.
  induction es as [|[c' w] es IH]; intros Hes; csimpl;
    [by intros ?%elem_of_nil|].
  assert (0 ≤ entry_sum c es)%Qc.
  { apply entry_sum_nonneg. intros. apply Qclt_le_weak, Hes. by right. }
  intros Hin. case_decide as Hc.
  - apply Qcplus_pos_nonneg; [|done]. by apply (Hes (c', w)); left.
  - apply IH; [intros; apply Hes; by right|].
    by apply elem_of_cons in Hin as [?|?].
Qed.

Lemma total_weight_nonneg bs :
  (∀ b, b ∈ bs → (0 ≤ weight b)%Qc) → (0 ≤ total_weight bs)%Qc.
Proof.
  induction bs as [|b bs IH]; intros Hw; simpl; [done|].
  apply Qcplus_nonneg_nonneg; [apply Hw; left|].
  apply IH. intros. apply Hw. by right.
Qed.

Lemma total_weight_pos bs :
  bs ≠ [] → (∀ b, b ∈ bs → (0 < weight b)%Qc) → (0 < total_weight bs)%Qc.
Proof.
  destruct bs as [|b bs]; [done|]. intros _ Hw. simpl.
  apply Qcplus_pos_nonneg; [apply Hw; left|].
  apply total_weight_nonneg. intros. apply Qclt_le_weak, Hw. by right.
Qed.
End entry_sum.

(** The ballots a round finds, on a call that started from fresh ones:
    positive weights, and the approval lists of the start. *)
Lemma after_round_weights_pos h bs seats k st b :
  refs_live h bs → fresh h bs →
  after_round h bs seats k st →
  b ∈ deref (st_heap st) bs → (0 < weight b)%Qc.
Proof.
  intros Hlive Hfresh Hst.
  rewrite (after_round_deref h bs seats k st Hlive Hst).
  case_decide.
  - intros (l & -> & Hl)%list_elem_of_fmap. by rewrite Hfresh.
  - intros (b0 & -> & _)%list_elem_of_fmap. apply new_weight_range.
Qed.

(** A recorded round of a call on fresh ballots saw a positive sum of
    weights. *)
Lemma recorded_votes_pos h bs seats h' res i r :
  refs_live h bs →
  fresh h bs →
  approval_election h bs seats = (h', inr res) →
  rounds res !! i = Some r →
  (0 < weighted_votes r)%Qc.
Proof.
  intros Hlive Hfresh Hres Hr.
  destruct (approval_election_round _ _ _ _ _ _ _ Hres Hr)
    as (sti & Hsti & _ & _ & Hs & Hv & v0 & rest & Hmc).
  rewrite Hv, sum_weights_total. apply total_weight_pos.
  - intros Hnil. apply most_common_head_key in Hmc.
    rewrite Hs, score_ballots_tally in Hmc.
    apply elem_of_tally_keys in Hmc as [_ Hin].
    rewrite Hnil in Hin. by apply elem_of_nil in Hin.
  - intros b Hb. by eapply after_round_weights_pos.
Qed.

(** X10: on fresh ballots every recorded round has a positive
    [weighted_votes] and every score it holds is positive. *)
Theorem recorded_scores_positive h bs seats h' res i r :
  refs_live h bs →
  fresh h bs →
  approval_election h bs seats = (h', inr res) →
  rounds res !! i = Some r →
  (0 < weighted_votes r)%Qc ∧
  (∀ c v, (c, v) ∈ scores r → (0 < v)%Qc).
Proof.
  intros Hlive Hfresh Hres Hr.
  destruct (approval_election_round _ _ _ _ _ _ _ Hres Hr)
    as (sti & Hsti & _ & _ & Hs & Hv & v0 & rest & Hmc).
  pose proof (after_round_weights_pos h bs seats i sti) as Hpos.
  assert (∀ c v, (c, v) ∈ scores r →
            (c ∉ st_winners sti) ∧
            c ∈ (approvals (deref (st_heap sti) bs)).*1 ∧
            v = entry_sum c (approvals (deref (st_heap sti) bs))) as Hval.
  { intros c v Hin.
    assert (c ∈ (scores r).*1) as Hkey
      by (apply list_elem_of_fmap; by exists (c, v)).
    rewrite Hs, score_ballots_tally in Hkey.
    apply elem_of_tally_keys in Hkey as [Hc Hentries].
    split_and!; [done..|].
    rewrite <-(counter_get_elem_of (scores r) c v); [|by rewrite Hs; apply score_ballots_NoDup|done].
    rewrite Hs, score_ballots_tally, tally_get by done. simpl.
    by rewrite Qcplus_0_l. }
  assert (∀ e, e ∈ approvals (deref (st_heap sti) bs) → (0 < e.2)%Qc)
    as Hentry.
  { intros [c w] (b & Hb & _ & ->)%elem_of_approvals. simpl. by eapply Hpos. }
  split.
  - by eapply recorded_votes_pos.
  - intros c v (_ & Hentries & ->)%Hval. by apply entry_sum_pos.
Qed.

Lemma recorded_scores_positive_witness :
  (0 < weighted_votes (round_of (result_of (run spav_example 2)) 1))%Qc ∧
  (∀ c v, (c, v) ∈ scores (round_of (result_of (run spav_example 2)) 1) →
          (0 < v)%Qc).
Proof.
  apply (recorded_scores_positive
           (fresh_ballots spav_example).1 (fresh_ballots spav_example).2 2
           (run spav_example 2).1 (result_of (run spav_example 2)) 1).
  - intros l Hl. each_elem Hl ltac:(by eexists).
  - intros l Hl. each_elem Hl ltac:(by vm_compute).
  - vm_compute. reflexivity.
  - vm_compute. reflexivity.
Defined.

(** ** Scores from one round to the next *)

(** [1 / (1 + m)] shrinks as [m] grows. *)
Lemma new_weight_anti m n : m ≤ n → (new_weight n ≤ new_weight m)%Qc.
Proof.
  intros Hmn. unfold new_weight, Qcdiv. rewrite !Qcmult_1_l.
  pose proof (Qc_of_nat_pos m) as Hm. pose proof (Qc_of_nat_pos n) as Hn.
  apply (Qcmult_le_mono_pos_r _ _ (Qc_of_nat (1 + n))); [done|].
  rewrite Qcmult_inv_l by by apply Qc_of_nat_nonzero.
  apply (Qcmult_le_mono_pos_l _ _ (Qc_of_nat (1 + m))); [done|].
  rewrite Qcmult_1_r, Qcmult_assoc, Qcmult_inv_r, Qcmult_1_l
    by by apply Qc_of_nat_nonzero.
  unfold Qc_of_nat. rewrite <-Z2Qc_inj_le. lia.
Qed.

(** More winners, more of a ballot's entries among them. *)
Lemma approved_winners_mono ws ws' b :
  (∀ c, c ∈ ws → c ∈ ws') → approved_winners ws b ≤ approved_winners ws' b.
Proof.
  intros Hsub. unfold approved_winners.
  induction (approved_candidates b) as [|c cs IH]; [done|].
  destruct (decide (c ∈ ws)) as [Hc|Hc].
  - rewrite !filter_cons_True by auto. simpl. lia.
  - rewrite (filter_cons_False (λ c, c ∈ ws)) by done.
    destruct (decide (c ∈ ws')).
    + rewrite filter_cons_True by done. simpl. lia.
    + by rewrite filter_cons_False by done.
Qed.

Lemma entry_sum_ballot_mono c (w1 w2 : Qc) (cs : list Candidate) :
  (w1 ≤ w2)%Qc →
  (entry_sum c ((λ c', (c', w1)) <$> cs) ≤
   entry_sum c ((λ c', (c', w2)) <$> cs))%Qc.
Proof.
  intros Hw. induction cs as [|c0 cs IH]; csimpl; [done|].
  case_decide; [|done]. by apply Qcplus_le_compat.
Qed.

(** Two heaps that hold the same approval lists behind a list of
    references, the first with the smaller weights: the first gives the
    smaller scores. *)
Lemma entry_sum_deref_mono c (h1 h2 : heap) ls :
  (∀ l, l ∈ ls →
        approved_candidates (h1 !!! l) = approved_candidates (h2 !!! l) ∧
        (weight (h1 !!! l) ≤ weight (h2 !!! l))%Qc) →
  (entry_sum c (approvals (deref h1 ls)) ≤
   entry_sum c (approvals (deref h2 ls)))%Qc.
Proof.
  unfold approvals, deref.
  induction ls as [|l ls IH]; intros Hls; [done|].
  rewrite !fmap_cons, !bind_cons, !entry_sum_app.
  destruct (Hls l) as [-> Hw]; [left|].
  apply Qcplus_le_compat; [by apply entry_sum_ballot_mono|].
  apply IH. intros. apply Hls. by right.
Qed.

(** The weight of a listed ballot never grows from round to round, on a
    call that started from fresh ballots. *)
Lemma after_round_weight_mono h bs seats i j sti stj l :
  refs_live h bs → fresh h bs →
  after_round h bs seats i sti → after_round h bs seats j stj →
  i ≤ j → l ∈ bs →
  (weight (st_heap stj !!! l) ≤ weight (st_heap sti !!! l))%Qc.
Proof.
  intros Hlive Hfresh Hsti Hstj Hij Hl.
  destruct (Hlive l Hl) as [b Hb].
  destruct (after_round_prefix h bs seats i j stj Hij Hstj)
    as (sti' & Hsti' & Hw & _).
  rewrite (after_round_fun _ _ _ _ _ _ Hsti Hsti') in *. clear Hsti.
  destruct j as [|j].
  - assert (i = 0) as -> by lia.
    apply after_round_0 in Hstj as ->. by apply after_round_0 in Hsti' as ->.
  - rewrite (lookup_total_alt (st_heap stj)).
    rewrite (after_round_heap _ _ _ (S j) stj l Hstj) by lia.
    rewrite decide_True, Hb by done. simpl.
    destruct i as [|i].
    + apply after_round_0 in Hsti' as ->. simpl.
      rewrite (Hfresh l Hl). apply new_weight_range.
    + rewrite (lookup_total_alt (st_heap sti')).
      rewrite (after_round_heap _ _ _ (S i) sti' l Hsti') by lia.
      rewrite decide_True, Hb by done. simpl.
      apply new_weight_anti, approved_winners_mono.
      rewrite Hw. intros c. apply subseteq_take.
Qed.

(** X11: on fresh ballots a candidate's score never grows from one
    recorded round to a later one: a key of the later round's score map
    is a key of the earlier one too, with a score at least as high. *)
Theorem scores_never_increase h bs seats h' res i j ri rj c :
  refs_live h bs →
  fresh h bs →
  approval_election h bs seats = (h', inr res) →
  i ≤ j →
  rounds res !! i = Some ri →
  rounds res !! j = Some rj →
  c ∈ (scores rj).*1 →
  c ∈ (scores ri).*1 ∧
  (counter_get (scores rj) c ≤ counter_get (scores ri) c)%Qc.
Proof.
  intros Hlive Hfresh Hres Hij Hri Hrj Hc.
  destruct (approval_election_round _ _ _ _ _ _ _ Hres Hri)
    as (sti & Hsti & Hwi & _ & Hsi & _).
  destruct (approval_election_round _ _ _ _ _ _ _ Hres Hrj)
    as (stj & Hstj & Hwj & _ & Hsj & _).
  rewrite Hsj in Hc. apply elem_of_score_ballots in Hc as [Hcj (l & Hl & Hin)].
  rewrite (after_round_approved _ _ _ _ _ _ Hstj) in Hin.
  assert (c ∉ st_winners sti) as Hci.
  { rewrite Hwi. rewrite Hwj in Hcj. intros Hc. apply Hcj.
    apply elem_of_take in Hc as (n & ? & ?). apply elem_of_take.
    exists n. split; [done|lia]. }
  split.
  - rewrite Hsi. apply elem_of_score_ballots. split; [done|].
    exists l. by rewrite (after_round_approved _ _ _ _ _ _ Hsti).
  - rewrite Hsi, Hsj, !score_ballots_tally, !tally_get by done. simpl.
    rewrite !Qcplus_0_l. apply entry_sum_deref_mono. intros l' Hl'. split.
    + rewrite (after_round_approved _ _ _ _ _ _ Hsti).
      by rewrite (after_round_approved _ _ _ _ _ _ Hstj).
    + by apply (after_round_weight_mono h bs seats i j).
Qed.

Lemma scores_never_increase_witness :
  B ∈ (scores (round_of (result_of (run spav_example 2)) 0)).*1 ∧
  (counter_get (scores (round_of (result_of (run spav_example 2)) 1)) B ≤
   counter_get (scores (round_of (result_of (run spav_example 2)) 0)) B)%Qc.
Proof.
  apply (scores_never_increase
           (fresh_ballots spav_example).1 (fresh_ballots spav_example).2 2
           (run spav_example 2).1 (result_of (run spav_example 2)) 0 1).
  - intros l Hl. each_elem Hl ltac:(by eexists).
  - intros l Hl. each_elem Hl ltac:(by vm_compute).
  - vm_compute. reflexivity.
  - lia.
  - vm_compute. reflexivity.
  - vm_compute. reflexivity.
  - vm_compute. left.
Defined.

(** * The report of a round *)

(** ** [most_common] sorts, and sorts stably *)

Lemma insert_desc_sorted x l :
  StronglySorted (λ a b, (b.2 ≤ a.2)%Qc) l →
  StronglySorted (λ a b, (b.2 ≤ a.2)%Qc) (insert_desc x l).
Proof.
  induction 1 as [|y l Hl IH Hy]; simpl.
  - repeat constructor.
  - case_decide as Hxy.
    + constructor; [done|].
      rewrite insert_desc_Permutation. constructor; [|done].
      by apply Qclt_le_weak.
    + apply Qcnot_lt_le in Hxy.
      constructor; [by constructor|]. constructor; [done|].
      eapply Forall_impl; [exact Hy|]. intros z Hz. simpl in *.
      by apply Qcle_trans with (y.2).
Qed.

Lemma most_common_sorted s :
  StronglySorted (λ a b, (b.2 ≤ a.2)%Qc) (most_common s).
Proof.
  induction s as [|x s IH]; simpl; [constructor|]. by apply insert_desc_sorted.
Qed.

Lemma insert_desc_stable v x l :
  filter (λ e, e.2 = v) (insert_desc x l) = filter (λ e, e.2 = v) (x :: l).
Proof.
  induction l as [|y l IH]; simpl; [done|].
  case_decide as Hxy; [|done].
  destruct (decide (y.2 = v)) as [Hy|Hy].
  - rewrite (filter_cons_True _ y) by done. rewrite IH.
    assert (x.2 ≠ v) as Hx.
    { intros Hx. rewrite Hx, Hy in Hxy. by apply Qclt_not_eq in Hxy. }
    rewrite !(filter_cons_False _ x) by done.
    by rewrite filter_cons_True by done.
  - rewrite (filter_cons_False _ y) by done. rewrite IH.
    destruct (decide (x.2 = v)).
    + rewrite !(filter_cons_True _ x) by done.
      by rewrite filter_cons_False by done.
    + rewrite !(filter_cons_False _ x) by done.
      by rewrite filter_cons_False by done.
Qed.

Lemma most_common_stable v s :
  filter (λ e, e.2 = v) (most_common s) = filter (λ e, e.2 = v) s.
Proof.
  induction s as [|x s IH]; simpl; [done|].
  rewrite insert_desc_stable.
  destruct (decide (x.2 = v)).
  - rewrite !(filter_cons_True _ x) by done. by rewrite IH.
  - rewrite !(filter_cons_False _ x) by done. by rewrite IH.
Qed.

(** X20: the items taken from [most_common()], for the winner of a round
    and for the rows of its table, are the entries of the score map,
    each once, by descending score, entries with equal scores in the
    order in which they were inserted. *)
Theorem most_common_spec s :
  most_common s ≡ₚ s ∧
  StronglySorted (λ a b, (b.2 ≤ a.2)%Qc) (most_common s) ∧
  ∀ v, filter (λ e, e.2 = v) (most_common s) = filter (λ e, e.2 = v) s.
Proof.
  split_and!;
    [apply most_common_Permutation|apply most_common_sorted
    |intros; apply most_common_stable].
Qed.

(** ** The table *)

Lemma table_row_of_Some r e :
  weighted_votes r ≠ 0%Qc → table_row_of r e = Some (table_row_total r e).
Proof.
  intros Hv. unfold table_row_of, table_row_total, py_div. cbv zeta.
  by destruct (decide (weighted_votes r = 0%Qc)).
Qed.

Lemma table_row_of_None r e :
  weighted_votes r = 0%Qc → table_row_of r e = None.
Proof.
  intros Hv. unfold table_row_of, py_div. cbv zeta.
  by destruct (decide (weighted_votes r = 0%Qc)).
Qed.

Lemma round_table_Some r :
  weighted_votes r ≠ 0%Qc →
  round_table r = Some (table_row_total r <$> most_common (scores r)).
Proof.
  intros Hv. unfold round_table. apply mapM_Some.
  induction (most_common (scores r)) as [|e l IH]; csimpl; constructor;
    [by apply table_row_of_Some|done].
Qed.

(** X12: building the table of a round raises [ZeroDivisionError]
    exactly when [weighted_votes] is zero and the score map has an
    entry; an empty score map gives an empty table whatever the votes. *)
Theorem round_table_zero_division r :
  round_table r = None ↔ weighted_votes r = 0%Qc ∧ scores r ≠ [].
Proof.
  split.
  - intros Hnone. destruct (decide (weighted_votes r = 0%Qc)) as [Hv|Hv].
    + split; [done|]. intros Hs. unfold round_table in Hnone.
      by rewrite Hs in Hnone.
    + by rewrite round_table_Some in Hnone.
  - intros [Hv Hs]. unfold round_table.
    destruct (most_common (scores r)) as [|e l] eqn:Hmc.
    + by apply (proj1 (most_common_nil _)) in Hmc.
    + simpl. by rewrite table_row_of_None.
Qed.

(** X13: a table that is built has one row per entry of the score map,
    carrying the entries' scores, in descending order of score. *)
Theorem round_table_rows r rows :
  round_table r = Some rows →
  length rows = length (scores r) ∧
  row_approve <$> rows ≡ₚ (scores r).*2 ∧
  StronglySorted (λ a b, (row_approve b ≤ row_approve a)%Qc) rows.
Proof.
  intros Hrows.
  assert (rows = table_row_total r <$> most_common (scores r)) as ->.
  { destruct (decide (weighted_votes r = 0%Qc)) as [Hv|Hv].
    - destruct (decide (scores r = [])) as [Hs|Hs].
      + unfold round_table in Hrows. rewrite Hs in *. simpl in Hrows.
        by injection Hrows as <-.
      + by rewrite (proj2 (round_table_zero_division r)) in Hrows.
    - rewrite round_table_Some in Hrows by done. by injection Hrows as <-. }
  split_and!.
  - by rewrite length_fmap, most_common_Permutation.
  - rewrite <-list_fmap_compose.
    by rewrite <-(most_common_Permutation (scores r)) at 2.
  - apply (StronglySorted_fmap _ (λ a b, (b.2 ≤ a.2)%Qc));
      [|apply most_common_sorted].
    by intros ??.
Qed.

Lemma round_table_rows_witness :
  length (default [] (round_table (round_of (result_of (run plain_example 1)) 0))) =
    length (scores (round_of (result_of (run plain_example 1)) 0)) ∧
  row_approve <$>
    default [] (round_table (round_of (result_of (run plain_example 1)) 0)) ≡ₚ
    (scores (round_of (result_of (run plain_example 1)) 0)).*2 ∧
  StronglySorted (λ a b, (row_approve b ≤ row_approve a)%Qc)
    (default [] (round_table (round_of (result_of (run plain_example 1)) 0))).
Proof.
  apply round_table_rows. vm_compute. reflexivity.
Defined.

Lemma string_app_empty (s : string) : String.append s "" = s.
Proof.
  induction s as [|a s IH]; [done|]. exact (f_equal (String a) IH).
Qed.

(** X14: the table of a round recorded by a call on fresh ballots is
    always built (no division by zero); its first row is the winner's,
    marked as such and with the highest number of approvals, and every
    other row carries the unmarked name of another candidate of the
    score map. *)
Theorem recorded_round_table h bs seats h' res i r :
  refs_live h bs →
  fresh h bs →
  approval_election h bs seats = (h', inr res) →
  rounds res !! i = Some r →
  ∃ row rows,
    round_table r = Some (row :: rows) ∧
    row_name row = String.append (name (winner r)) " (winner)" ∧
    Forall (λ row',
              (row_approve row' ≤ row_approve row)%Qc ∧
              ∃ c, c ≠ winner r ∧ c ∈ (scores r).*1 ∧ row_name row' = name c)
           rows.
Proof.
  intros Hlive Hfresh Hres Hr.
  pose proof (recorded_votes_pos _ _ _ _ _ _ _ Hlive Hfresh Hres Hr) as Hpos.
  destruct (approval_election_round _ _ _ _ _ _ _ Hres Hr)
    as (sti & _ & _ & _ & Hs & _ & v & rest & Hmc).
  assert (NoDup (most_common (scores r)).*1) as Hnd.
  { rewrite most_common_Permutation, Hs. apply score_ballots_NoDup. }
  pose proof (most_common_sorted (scores r)) as Hsorted.
  assert (∀ e, e ∈ rest → e ∈ scores r) as Hrest.
  { intros e He. rewrite <-(most_common_Permutation (scores r)), Hmc.
    by right. }
  rewrite Hmc in Hnd, Hsorted. csimpl in Hnd.
  apply NoDup_cons in Hnd as [Hw _].
  apply StronglySorted_cons in Hsorted as [Hle _].
  exists (table_row_total r (winner r, v)), (table_row_total r <$> rest).
  split_and!.
  - rewrite round_table_Some, Hmc; [done|].
    intros Hv. rewrite Hv in Hpos. by apply Qclt_not_eq in Hpos.
  - simpl. by rewrite decide_True.
  - apply Forall_fmap, Forall_forall. intros [c x] He. simpl. split.
    + rewrite Forall_forall in Hle. by apply (Hle (c, x)).
    + exists c.
      assert (c ≠ winner r) as Hc.
      { intros ->. apply Hw. apply list_elem_of_fmap. by exists (winner r, x). }
      split_and!; [done| |by rewrite decide_False, string_app_empty].
      apply list_elem_of_fmap. exists (c, x). split; [done|by apply Hrest].
Qed.

Lemma recorded_round_table_witness :
  ∃ row rows,
    round_table (round_of (result_of (run spav_example 2)) 1) =
      Some (row :: rows) ∧
    row_name row =
      String.append
        (name (winner (round_of (result_of (run spav_example 2)) 1)))
        " (winner)" ∧
    Forall (λ row',
              (row_approve row' ≤ row_approve row)%Qc ∧
              ∃ c, c ≠ winner (round_of (result_of (run spav_example 2)) 1) ∧
                   c ∈ (scores (round_of (result_of (run spav_example 2)) 1)).*1 ∧
                   row_name row' = name c)
           rows.
Proof.
  apply (recorded_round_table
           (fresh_ballots spav_example).1 (fresh_ballots spav_example).2 2
           (run spav_example 2).1 (result_of (run spav_example 2)) 1).
  - intros l Hl. each_elem Hl ltac:(by eexists).
  - intros l Hl. each_elem Hl ltac:(by vm_compute).
  - vm_compute. reflexivity.
  - vm_compute. reflexivity.
Defined.

(** * Reading ballots *)

Section parse.
Context `{!Builtins}.

Lemma row_ballots_inr row bs :
  row_ballots row = inr bs ↔
  row ≠ [] ∧
  bs = replicate (row_count row) (mkBallot (row_candidates row) 1%Qc).
Proof.
  destruct row as [|first rest]; simpl; [naive_solver|].
  split; [by intros [= <-]|by intros [_ ->]].
Qed.

Lemma row_ballots_inl row e :
  row_ballots row = inl e ↔ row = [] ∧ e = unpack_error.
Proof. destruct row as [|first rest]; simpl; naive_solver. Qed.

Lemma parse_loop_inr acc rows bs :
  parse_loop acc rows = inr bs ↔
  ([] ∉ rows) ∧
  bs = acc ++ (rows ≫= λ row,
                 replicate (row_count row)
                           (mkBallot (row_candidates row) 1%Qc)).
Proof.
  revert acc. induction rows as [|row rows IH]; intros acc; simpl.
  - rewrite app_nil_r. split; [intros [= <-]|intros [_ ->]]; [|done].
    split; [apply not_elem_of_nil|done].
  - destruct (row_ballots row) as [e|new] eqn:Hrow.
    + apply row_ballots_inl in Hrow as [-> _]. split; [done|].
      intros [Hnil _]. destruct Hnil. left.
    + apply row_ballots_inr in Hrow as [Hne ->].
      rewrite IH, not_elem_of_cons, <-app_assoc. naive_solver.
Qed.

(** X15: [parse_ballots] fails exactly when the reader yields an empty
    row, with the [ValueError] of unpacking it; a first field that does
    not read as an integer is no error. *)
Theorem parse_rows_fails rows e :
  parse_rows rows = inl e ↔ [] ∈ rows ∧ e = unpack_error.
Proof.
  unfold parse_rows. generalize ([] : list Ballot).
  induction rows as [|row rows IH]; intros acc; simpl.
  - split; [done|]. by intros [?%elem_of_nil _].
  - destruct (row_ballots row) as [e'|new] eqn:Hrow.
    + apply row_ballots_inl in Hrow as [-> ->].
      split; [intros [= <-]; split; [left|done]|by intros [_ ->]].
    + apply row_ballots_inr in Hrow as [Hne _].
      rewrite IH, elem_of_cons. naive_solver.
Qed.

(** X16: every ballot [parse_ballots] returns has weight 1 and approves
    the stripped names of the fields after the first of some row; the
    first field is either a count of at least 1 or not an integer, and in
    neither case a candidate. *)
Theorem parsed_ballot_shape rows bs b :
  parse_rows rows = inr bs →
  b ∈ bs →
  weight b = 1%Qc ∧
  ∃ first rest,
    (first :: rest) ∈ rows ∧
    approved_candidates b = (λ name, mkCandidate (py_strip name)) <$> rest ∧
    (py_int first = None ∨ ∃ n, py_int first = Some n ∧ (1 ≤ n)%Z).
Proof.
  intros [_ ->]%parse_loop_inr. simpl.
  intros (row & [-> Hn]%elem_of_replicate & Hrow)%list_elem_of_bind.
  split; [done|].
  destruct row as [|first rest]; [done|]. exists first, rest.
  split_and!; [done..|]. simpl in Hn.
  destruct (py_int first) as [n|]; [right|by left].
  exists n. split; [done|]. simpl in Hn. lia.
Qed.

Lemma approval_entries_app bs1 bs2 c :
  approval_entries (bs1 ++ bs2) c =
  approval_entries bs1 c + approval_entries bs2 c.
Proof.
  unfold approval_entries. by rewrite bind_app, filter_app, length_app.
Qed.

Lemma approval_entries_replicate n b c :
  approval_entries (replicate n b) c =
  n * length (filter (λ c', c' = c) (approved_candidates b)).
Proof.
  induction n as [|n IH]; [done|].
  change (replicate (S n) b) with ([b] ++ replicate n b).
  rewrite approval_entries_app, IH. unfold approval_entries at 1.
  simpl. rewrite app_nil_r. lia.
Qed.

(** X17: [parse_ballots] returns as many ballots as the counts of the
    rows add up to (1 for a first field that is no integer, 0 for a
    negative count), and a candidate has as many approval entries as the
    rows list it, each row taken as often as its count says. *)
Theorem parsed_counts rows bs :
  parse_rows rows = inr bs →
  length bs = sum_list (row_count <$> rows) ∧
  ∀ c,
    approval_entries bs c =
    sum_list ((λ row,
                 row_count row *
                 length (filter (λ c', c' = c) (row_candidates row)))
              <$> rows).
Proof.
  intros [_ ->]%parse_loop_inr. simpl. clear.
  induction rows as [|row rows [IHl IHe]]; [done|].
  rewrite bind_cons. split.
  - by rewrite length_app, length_replicate, IHl.
  - intros c. by rewrite approval_entries_app, approval_entries_replicate, IHe.
Qed.
End parse.

(** ** From the parsed ballots to the election *)

(** New objects are distinct from each other and from the objects that
    exist; these stay as they are. *)
Lemma new_ballots_spec h bs :
  NoDup (new_ballots h bs).2 ∧
  (∀ l, l ∈ (new_ballots h bs).2 → h !! l = None) ∧
  (∀ l b, h !! l = Some b → (new_ballots h bs).1 !! l = Some b) ∧
  (λ l, (new_ballots h bs).1 !! l) <$> (new_ballots h bs).2 = Some <$> bs.
Proof.
  revert h. induction bs as [|b bs IH]; intros h; csimpl.
  - split_and!; [constructor|by intros ? ?%elem_of_nil|done..].
  - set (l := stdpp.base.fresh (dom h)).
    assert (h !! l = None) as Hl by apply not_elem_of_dom, is_fresh.
    destruct (IH (<[l:=b]> h)) as (Hnd & Hnew & Hold & Hget).
    assert (∀ l', l' ∈ (new_ballots (<[l:=b]> h) bs).2 →
                  l' ≠ l ∧ h !! l' = None) as Hnew'.
    { intros l' Hl'%Hnew. apply lookup_insert_None in Hl'. naive_solver. }
    split_and!.
    + constructor; [|done]. intros Hin. by destruct (Hnew' l Hin).
    + intros l' [->|Hl']%elem_of_cons; [done|]. by apply Hnew'.
    + intros l' b' Hb'. apply Hold. rewrite lookup_insert_ne; [done|].
      intros <-. congruence.
    + rewrite Hget. f_equal. apply Hold, lookup_insert_eq.
Qed.

Lemma new_ballots_deref h bs :
  refs_live (new_ballots h bs).1 (new_ballots h bs).2 ∧
  deref (new_ballots h bs).1 (new_ballots h bs).2 = bs.
Proof.
  destruct (new_ballots_spec h bs) as (_ & _ & _ & Hget).
  revert Hget. generalize (new_ballots h bs).1 (new_ballots h bs).2.
  intros h' ls. revert bs. induction ls as [|l ls IH]; intros [|b bs];
    csimpl; try done.
  - intros _. split; [by intros ? ?%elem_of_nil|done].
  - intros [= Hl Hls]. destruct (IH bs Hls) as [Hlive Hd]. split.
    + intros l' [->|?]%elem_of_cons; [by eexists|by apply Hlive].
    + unfold deref in *. csimpl. rewrite Hd. f_equal.
      by rewrite lookup_total_alt, Hl.
Qed.

Section parse_then_elect.
Context `{!Builtins}.

Lemma parsed_weight rows bs b :
  parse_rows rows = inr bs → b ∈ bs → weight b = 1%Qc.
Proof.
  intros [_ ->]%parse_loop_inr. simpl.
  by intros (row & [-> _]%elem_of_replicate & _)%list_elem_of_bind.
Qed.

(** X18: the ballots [parse_ballots] returns are new objects, distinct
    from each other and from everything that existed, all of weight 1;
    creating them changes no existing object. *)
Theorem parsed_ballots_new h rows bs :
  parse_rows rows = inr bs →
  fresh (new_ballots h bs).1 (new_ballots h bs).2 ∧
  refs_live (new_ballots h bs).1 (new_ballots h bs).2 ∧
  NoDup (new_ballots h bs).2 ∧
  deref (new_ballots h bs).1 (new_ballots h bs).2 = bs ∧
  (∀ l, l ∈ (new_ballots h bs).2 → h !! l = None) ∧
  (∀ l b, h !! l = Some b → (new_ballots h bs).1 !! l = Some b).
Proof.
  intros Hparse.
  destruct (new_ballots_spec h bs) as (Hnd & Hnew & Hold & _).
  destruct (new_ballots_deref h bs) as (Hlive & Hd).
  split_and!; try done.
  intros l Hl.
  assert ((new_ballots h bs).1 !!! l ∈ deref (new_ballots h bs).1
                                           (new_ballots h bs).2) as Hin.
  { apply list_elem_of_fmap. by exists l. }
  rewrite Hd in Hin. by eapply parsed_weight.
Qed.
End parse_then_elect.

(** Whatever the outcome, the call leaves unlisted objects alone. *)
Lemma approval_election_unlisted h bs seats l :
  l ∉ bs → (approval_election h bs seats).1 !! l = h !! l.
Proof.
  intros Hl.
  destruct (approval_election h bs seats) as [h' [e|res]] eqn:Hcall; simpl.
  - apply approval_election_raises in Hcall as (k & st & _ & Hst & _ & ->).
    by apply (after_round_frame _ _ _ _ _ Hst).
  - apply approval_election_returns in Hcall as (st & Hst & -> & _).
    by apply (after_round_frame _ _ _ _ _ Hst).
Qed.

Section pipeline.
Context `{!Builtins}.

(** X19: [parse_ballots] followed by [approval_election], as in [main]:
    when parsing succeeds, the election writes to none of the objects
    that existed before, and it returns a [Result] exactly when the rows
    with a positive count name at least [seats] distinct candidates. *)
Theorem elect_rows_outcome h rows seats bs :
  parse_rows rows = inr bs →
  (∀ l b, h !! l = Some b → (elect_rows h rows seats).1 !! l = Some b) ∧
  ((∃ res, (elect_rows h rows seats).2 = inr res) ↔
   Z.to_nat seats ≤ length (first_seen (bs ≫= approved_candidates))).
Proof.
  intros Hparse. unfold elect_rows. rewrite Hparse.
  destruct (new_ballots_spec h bs) as (_ & Hnew & Hold & _).
  destruct (new_ballots_deref h bs) as (_ & Hd).
  assert (approved_distinct (new_ballots h bs).1 (new_ballots h bs).2 =
          first_seen (bs ≫= approved_candidates)) as Hdistinct.
  { unfold approved_distinct. by rewrite Hd, approvals_fst. }
  split.
  - intros l b Hb. rewrite approval_election_unlisted; [by apply Hold|].
    intros Hl%Hnew. congruence.
  - rewrite <-Hdistinct. split.
    + intros [res Hres].
      destruct (decide (Z.to_nat seats ≤
                        length (approved_distinct (new_ballots h bs).1
                                                  (new_ballots h bs).2)))
        as [|Hshort]; [done|].
      destruct (approval_election_short (new_ballots h bs).1
                  (new_ballots h bs).2 seats) as (st & _ & Hraise); [lia|].
      rewrite Hraise in Hres. done.
    + intros Hd'.
      destruct (approval_election_enough _ _ _ Hd') as (h' & res & ->).
      by exists res.
Qed.
End pipeline.

(** ** The example rows *)

Lemma parsed_ballot_shape_witness :
  weight (mkBallot [A; B] 1%Qc) = 1%Qc ∧
  ∃ first rest,
    (first :: rest) ∈ spav_rows ∧
    approved_candidates (mkBallot [A; B] 1%Qc) =
      (λ name, mkCandidate (@py_strip example_builtins name)) <$> rest ∧
    (@py_int example_builtins first = None ∨
     ∃ n, @py_int example_builtins first = Some n ∧ (1 ≤ n)%Z).
Proof.
  apply (@parsed_ballot_shape example_builtins spav_rows
           spav_parsed).
  - reflexivity.
  - left.
Defined.

Lemma parsed_counts_witness :
  length spav_parsed =
    sum_list (@row_count example_builtins <$> spav_rows) ∧
  ∀ c,
    approval_entries spav_parsed c =
    sum_list ((λ row,
                 @row_count example_builtins row *
                 length (filter (λ c', c' = c)
                                (@row_candidates example_builtins row)))
              <$> spav_rows).
Proof.
  apply (@parsed_counts example_builtins spav_rows). reflexivity.
Defined.

Lemma parsed_ballots_new_witness :
  fresh (new_ballots shared_heap spav_parsed).1
        (new_ballots shared_heap spav_parsed).2 ∧
  refs_live (new_ballots shared_heap spav_parsed).1
            (new_ballots shared_heap spav_parsed).2 ∧
  NoDup (new_ballots shared_heap spav_parsed).2 ∧
  deref (new_ballots shared_heap spav_parsed).1
        (new_ballots shared_heap spav_parsed).2 =
    spav_parsed ∧
  (∀ l, l ∈ (new_ballots shared_heap
               spav_parsed).2 →
        shared_heap !! l = None) ∧
  (∀ l b, shared_heap !! l = Some b →
          (new_ballots shared_heap
             spav_parsed).1 !! l = Some b).
Proof.
  apply (@parsed_ballots_new example_builtins shared_heap spav_rows).
  reflexivity.
Defined.

Lemma elect_rows_outcome_witness :
  (∀ l b, shared_heap !! l = Some b →
          (@elect_rows example_builtins shared_heap spav_rows 2).1 !! l =
            Some b) ∧
  ((∃ res, (@elect_rows example_builtins shared_heap spav_rows 2).2 = inr res) ↔
   Z.to_nat 2 ≤
   length (first_seen (spav_parsed
                         ≫= approved_candidates))).
Proof.
  apply (@elect_rows_outcome example_builtins). reflexivity.
Defined.

(** * The election over Python's own numbers *)

(** In this part the names are those of [Py]: the model with the
    arithmetic left open. *)
Section py_election.
Import Py.
Context `{!Numbers}.
Implicit Types (h : gmap loc Ballot) (st : state) (s : list (Candidate * num)).

(** ** The loop, one round at a time *)

Lemma py_election_round_inr ballots st st' :
  election_round ballots st = inr st' ↔
  ∃ scores w v rest votes,
    score_ballots (st_heap st) ballots (st_winners st) = Some scores ∧
    most_common scores = (w, v) :: rest ∧
    sum_weights (st_heap st) ballots = Some votes ∧
    st' = mkState
            (reweight_ballots (st_heap st) ballots (st_winners st ++ [w]))
            (st_winners st ++ [w])
            (st_rounds st ++ [mkRound w scores votes]).
Proof.
  unfold election_round.
  destruct (score_ballots _ _ _) as [scores|].
  2: { split; [done|]. by intros (? & ? & ? & ? & ? & ? & _). }
  destruct (most_common scores) as [|[w v] rest] eqn:Hmc.
  { split; [done|]. intros (? & ? & ? & ? & ? & [= <-] & Hmc' & _).
    by rewrite Hmc in Hmc'. }
  destruct (sum_weights _ _) as [votes|].
  2: { split; [done|]. by intros (? & ? & ? & ? & ? & _ & _ & ? & _). }
  split.
  - intros [= <-]. by exists scores, w, v, rest, votes.
  - intros (? & ? & ? & ? & ? & [= <-] & Hmc' & [= <-] & ->).
    rewrite Hmc in Hmc'. by injection Hmc' as <- _ _.
Qed.

Lemma py_election_round_length ballots st st' :
  election_round ballots st = inr st' →
  length (st_winners st') = S (length (st_winners st)).
Proof.
  intros (? & w & ? & ? & ? & _ & _ & _ & ->)%py_election_round_inr; simpl.
  rewrite length_app; simpl; lia.
Qed.

Lemma py_election_loop_eq ballots seats st :
  election_loop ballots seats st =
    if decide (Z.of_nat (length (st_winners st)) < seats)%Z then
      match election_round ballots st with
      | inl e => (st_heap st, inl e)
      | inr st' => election_loop ballots seats st'
      end
    else (st_heap st, inr (mkResult (st_winners st) (st_rounds st) ballots)).
Proof.
  funelim (election_loop ballots seats st); rewrite Heq; simpl; try done.
  all: match goal with E : election_round _ _ = _ |- _ => by rewrite E end.
Qed.

Lemma py_run_rounds_add j k ballots st :
  run_rounds (j + k) ballots st =
    match run_rounds j ballots st with
    | inl e => inl e
    | inr st' => run_rounds k ballots st'
    end.
Proof.
  revert st; induction j as [|j IH]; intros st; simpl; [done|].
  destruct (election_round ballots st); [done|apply IH].
Qed.

Lemma py_run_rounds_S k ballots st :
  run_rounds (S k) ballots st =
    match run_rounds k ballots st with
    | inl e => inl e
    | inr st' => election_round ballots st'
    end.
Proof.
  replace (S k) with (k + 1) by lia. rewrite py_run_rounds_add.
  destruct (run_rounds k ballots st); [done|]. simpl.
  by destruct (election_round _ _).
Qed.

(** The loop returns exactly when the remaining rounds all complete. *)
Lemma py_election_loop_returns ballots seats st h' res :
  election_loop ballots seats st = (h', inr res) ↔
  ∃ st',
    run_rounds (Z.to_nat (seats - Z.of_nat (length (st_winners st))))
               ballots st = inr st' ∧
    h' = st_heap st' ∧
    res = mkResult (st_winners st') (st_rounds st') ballots.
Proof.
  remember (Z.to_nat (seats - Z.of_nat (length (st_winners st)))) as n eqn:Hn.
  revert st Hn; induction n as [|n IH]; intros st Hn;
    rewrite py_election_loop_eq; case_decide; try lia; simpl.
  - split; [intros [= <- <-]; eauto|]. by intros (? & [= <-] & -> & ->).
  - destruct (election_round ballots st) as [e|st1] eqn:E.
    + split; [done|]. by intros (? & ? & _).
    + apply IH. apply py_election_round_length in E. lia.
Qed.

Lemma py_approval_election_returns h ballots seats h' res :
  approval_election h ballots seats = (h', inr res) ↔
  ∃ st,
    after_round h ballots seats (Z.to_nat seats) st ∧
    h' = st_heap st ∧
    res = mkResult (st_winners st) (st_rounds st) ballots.
Proof.
  unfold approval_election, after_round. rewrite py_election_loop_returns.
  simpl. rewrite Z.sub_0_r. split.
  - intros (st & ? & ? & ?). exists st. by split_and!.
  - intros (st & [_ ?] & ? & ?). by exists st.
Qed.

(** ** The rounds of one call *)

Lemma py_run_rounds_extends k ballots st st' :
  run_rounds k ballots st = inr st' →
  ∃ rs,
    length rs = k ∧
    st_winners st' = st_winners st ++ (winner <$> rs) ∧
    st_rounds st' = st_rounds st ++ rs.
Proof.
  revert st; induction k as [|k IH]; intros st; simpl.
  - intros [= <-]. exists []. by rewrite !app_nil_r.
  - destruct (election_round ballots st) as [|st1] eqn:E; [done|].
    intros Hrun. apply IH in Hrun as (rs & Hlen & Hw & Hr). rewrite Hw, Hr.
    apply py_election_round_inr in E
      as (scores & w & v & rest & votes & _ & _ & _ & ->); simpl.
    exists (mkRound w scores votes :: rs).
    rewrite <-!app_assoc; simpl. by rewrite Hlen.
Qed.

Lemma py_after_round_0 h ballots seats st :
  after_round h ballots seats 0 st ↔ st = init_state h.
Proof.
  unfold after_round; simpl. split; [by intros [_ [= <-]]|].
  intros ->; split; [lia|done].
Qed.

Lemma py_after_round_S h ballots seats k st :
  after_round h ballots seats (S k) st ↔
  ∃ stk,
    S k ≤ Z.to_nat seats ∧
    after_round h ballots seats k stk ∧
    election_round ballots stk = inr st.
Proof.
  unfold after_round. rewrite py_run_rounds_S. split.
  - intros [? Hk].
    destruct (run_rounds k _ _) as [|stk]; [done|].
    exists stk. split_and!; [done|lia|done..].
  - intros (stk & ? & [_ ->] & ?). done.
Qed.

Lemma py_after_round_lengths h ballots seats k st :
  after_round h ballots seats k st →
  length (st_winners st) = k ∧ length (st_rounds st) = k ∧
  winner <$> st_rounds st = st_winners st.
Proof.
  intros [_ (rs & <- & Hw & Hr)%py_run_rounds_extends].
  rewrite Hw, Hr; simpl. by rewrite length_fmap.
Qed.

Lemma py_after_round_prefix h ballots seats j k st :
  j ≤ k → after_round h ballots seats k st →
  ∃ stj,
    after_round h ballots seats j stj ∧
    st_winners stj = take j (st_winners st) ∧
    st_rounds stj = take j (st_rounds st).
Proof.
  intros Hjk [Hk Hrun].
  replace k with (j + (k - j)) in Hrun by lia.
  rewrite py_run_rounds_add in Hrun.
  destruct (run_rounds j ballots (init_state h)) as [|stj] eqn:Hj; [done|].
  assert (Haj : after_round h ballots seats j stj) by (split; [lia|done]).
  exists stj. split; [done|].
  destruct (py_after_round_lengths _ _ _ _ _ Haj) as (Hw & Hr & _).
  apply py_run_rounds_extends in Hrun as (rs & _ & Hw' & Hr').
  rewrite Hw', Hr'. by rewrite !take_app_length'.
Qed.
End py_election.

Section py_passes.
Import Py.
Context `{!Numbers}.
Implicit Types (h : gmap loc Ballot) (st : state) (s : list (Candidate * num)).
Implicit Types (es : list (Candidate * num)) (ws : list Candidate).

(** ** [most_common] *)

Lemma py_insert_desc_Permutation x s : insert_desc x s ≡ₚ x :: s.
Proof.
  induction s as [|y s IH]; simpl; [done|].
  destruct (num_lt _ _); [|done]. rewrite IH. apply Permutation_swap.
Qed.

Lemma py_most_common_Permutation s : most_common s ≡ₚ s.
Proof.
  induction s as [|x s IH]; simpl; [done|].
  by rewrite py_insert_desc_Permutation, IH.
Qed.

Lemma py_most_common_nil s : most_common s = [] → s = [].
Proof.
  intros Hs. apply Permutation_nil_r.
  by rewrite <-Hs, py_most_common_Permutation.
Qed.

(** With scores that [<] orders, the first item of [most_common()] is
    the entry that comes first, in insertion order, among those that no
    other entry exceeds. *)
Lemma py_most_common_head s c v rest :
  ordered →
  most_common s = (c, v) :: rest →
  ∃ pre post,
    s = pre ++ (c, v) :: post ∧
    (∀ x, x ∈ pre → num_lt x.2 v = true) ∧
    (∀ x, x ∈ post → num_lt v x.2 = false).
Proof.
  intros (Hirr & Htrans & Hco). revert c v rest.
  induction s as [|[cx vx] s IH]; intros c v rest; simpl; [done|].
  destruct (most_common s) as [|[c1 v1] rest1] eqn:Hs; simpl.
  - apply py_most_common_nil in Hs as ->. intros [= -> ->].
    exists [], []. split_and!; [done|intros ? ?%elem_of_nil; done..].
  - destruct (IH _ _ _ eq_refl) as (pre & post & -> & Hpre & Hpost).
    destruct (num_lt vx v1) eqn:Hlt.
    + intros [= <- <- <-]. exists ((cx, vx) :: pre), post.
      split_and!; [done| |done].
      intros y [->|?]%elem_of_cons; auto.
    + intros [= <- <- <-]. exists [], (pre ++ (c1, v1) :: post).
      split_and!; [done|intros ? ?%elem_of_nil; done|].
      intros y Hy. destruct (num_lt vx y.2) eqn:Hxy; [|done].
      apply elem_of_app in Hy as [Hy|[->|Hy]%elem_of_cons].
      * apply Hpre in Hy. rewrite (Htrans _ _ _ Hxy Hy) in Hlt. done.
      * simpl in Hxy. congruence.
      * destruct (Hco _ _ v1 Hxy) as [H1|H1]; [congruence|].
        rewrite (Hpost y Hy) in H1. done.
Qed.

Lemma py_most_common_head_key s c v rest :
  most_common s = (c, v) :: rest → c ∈ s.*1.
Proof.
  intros Hmc. rewrite <-(py_most_common_Permutation s), Hmc. csimpl. left.
Qed.

(** ** The scoring pass *)

Lemma py_counter_set_keys s c v :
  (counter_set s c v).*1 = see (s.*1) c.
Proof.
  unfold see. case_decide as Hc.
  - induction s as [|[c' v'] s IH]; csimpl; [by apply elem_of_nil in Hc|].
    destruct (decide (c' = c)) as [->|Hne]; csimpl; [done|].
    csimpl in Hc. apply elem_of_cons in Hc as [?|?]; [done|]. by rewrite IH.
  - induction s as [|[c' v'] s IH]; csimpl; [done|].
    csimpl in Hc. apply not_elem_of_cons in Hc as [? ?].
    rewrite decide_False by done. csimpl. by rewrite IH.
Qed.

Lemma py_tally_None ws es : tally ws None es = None.
Proof. unfold tally. induction es as [|e es IH]; [done|]. simpl. apply IH. Qed.

(** The keys of the mapping the scoring pass builds are the candidates
    of the entries that have not won yet, in first-seen order. *)
Lemma py_tally_keys ws s es s' :
  tally ws (Some s) es = Some s' →
  s'.*1 = foldl see (s.*1) (filter (λ c, c ∉ ws) (es.*1)).
Proof.
  revert s. induction es as [|[c w] es IH]; intros s.
  - by intros [= <-].
  - change (tally ws (Some s) ((c, w) :: es))
      with (tally ws (if decide (c ∈ ws) then Some s
                      else counter_add s c w) es).
    rewrite fmap_cons. simpl.
    destruct (decide (c ∈ ws)) as [Hc|Hc].
    + rewrite filter_cons_False by naive_solver. apply IH.
    + rewrite filter_cons_True by done. simpl.
      unfold counter_add. destruct (num_add _ _) as [v|]; simpl.
      * intros Hs'%IH. by rewrite py_counter_set_keys in Hs'.
      * by rewrite py_tally_None.
Qed.

Lemma py_score_ballots_tally h ballots ws :
  score_ballots h ballots ws = tally ws (Some []) (entries (deref h ballots)).
Proof.
  unfold score_ballots.
  generalize (Some [] : option (list (Candidate * num))).
  induction ballots as [|l ls IH]; intros acc; [done|].
  cbn [foldl]. rewrite IH. unfold deref, entries.
  rewrite fmap_cons, bind_cons. unfold tally at 2. rewrite foldl_app.
  f_equal. unfold score_ballot. by rewrite foldl_fmap.
Qed.

Lemma py_entries_fst (bs : list Ballot) :
  (entries bs).*1 = bs ≫= approved_candidates.
Proof.
  unfold entries. induction bs as [|b bs IH]; [done|].
  rewrite !bind_cons, fmap_app, IH. f_equal.
  rewrite <-list_fmap_compose. apply list_fmap_id.
Qed.

Lemma py_score_ballots_keys h ballots ws s :
  score_ballots h ballots ws = Some s →
  s.*1 = first_seen (filter (λ c, c ∉ ws)
                            (deref h ballots ≫= approved_candidates)).
Proof.
  rewrite py_score_ballots_tally. intros Hs%py_tally_keys.
  by rewrite py_entries_fst in Hs.
Qed.

Lemma py_elem_of_score_ballots h ballots ws s c :
  score_ballots h ballots ws = Some s →
  c ∈ s.*1 ↔ (c ∉ ws) ∧ ∃ l, l ∈ ballots ∧ c ∈ approved_candidates (h !!! l).
Proof.
  intros ->%py_score_ballots_keys.
  rewrite elem_of_first_seen, list_elem_of_filter, list_elem_of_bind.
  unfold deref. setoid_rewrite list_elem_of_fmap. naive_solver.
Qed.
End py_passes.

Section py_rounds.
Import Py.
Context `{!Numbers}.
Implicit Types (h : gmap loc Ballot) (st : state) (s : list (Candidate * num)).

(** ** The heap *)

Lemma py_reweight_step_lookup h ws l0 l :
  alter (set_weight (one_over (Pos.of_succ_nat
                                 (approved_winners ws (h !!! l0))))) l0 h !! l =
    if decide (l = l0) then reweight_ballot ws <$> h !! l else h !! l.
Proof.
  case_decide as Hl.
  - subst l. rewrite lookup_alter_eq, lookup_total_alt.
    by destruct (h !! l0).
  - by rewrite lookup_alter_ne.
Qed.

(** The reweighting pass rewrites exactly the objects the list refers
    to, however often it refers to them. *)
Lemma py_reweight_ballots_lookup h ballots ws l :
  reweight_ballots h ballots ws !! l =
    if decide (l ∈ ballots) then reweight_ballot ws <$> h !! l else h !! l.
Proof.
  unfold reweight_ballots. revert h.
  induction ballots as [|l0 ballots IH]; intros h; cbn [foldl].
  - case_decide as H0; [by apply elem_of_nil in H0|done].
  - rewrite IH, !py_reweight_step_lookup.
    destruct (decide (l = l0)) as [->|Hne].
    + rewrite (decide_True (P := l0 ∈ l0 :: ballots)) by left.
      case_decide; [|done]. by destruct (h !! l0).
    + destruct (decide (l ∈ ballots)) as [Hin|Hin].
      * by rewrite (decide_True (P := l ∈ l0 :: ballots)) by by right.
      * rewrite (decide_False (P := l ∈ l0 :: ballots)); [done|].
        by intros [?|?]%elem_of_cons.
Qed.

Section call.
Context (h : gmap loc Ballot) (ballots : list loc) (seats : Z).

(** From the first round on, every listed ballot carries the weight the
    last reweighting pass gave it; other objects are as before the
    call. *)
Lemma py_after_round_heap k st l :
  after_round h ballots seats k st → 1 ≤ k →
  st_heap st !! l =
    if decide (l ∈ ballots)
    then reweight_ballot (st_winners st) <$> h !! l else h !! l.
Proof.
  revert st. induction k as [|k IH]; intros st Hst Hk; [lia|].
  apply py_after_round_S in Hst as (stk & _ & Hstk & Hround).
  apply py_election_round_inr in Hround
    as (scores & w & v & rest & votes & _ & _ & _ & ->); simpl.
  rewrite py_reweight_ballots_lookup.
  destruct k as [|k].
  - by apply py_after_round_0 in Hstk as ->.
  - rewrite (IH stk Hstk) by lia.
    case_decide; [|done]. by destruct (h !! l).
Qed.

Lemma py_after_round_approved k st l :
  after_round h ballots seats k st →
  approved_candidates (st_heap st !!! l) = approved_candidates (h !!! l).
Proof.
  intros Hst. destruct k as [|k].
  - by apply py_after_round_0 in Hst as ->.
  - rewrite !lookup_total_alt, (py_after_round_heap (S k)) by (done || lia).
    case_decide; [|done]. by destruct (h !! l).
Qed.

(** The ballots the list refers to, as the round after the [k]-th finds
    them. *)
Lemma py_after_round_deref k st :
  refs_live h ballots →
  after_round h ballots seats k st →
  deref (st_heap st) ballots =
    if decide (k = 0) then deref h ballots
    else reweight_ballot (st_winners st) <$> deref h ballots.
Proof.
  intros Hlive Hst. case_decide as Hk.
  - subst k. by apply py_after_round_0 in Hst as ->.
  - unfold deref. rewrite <-list_fmap_compose.
    apply list_fmap_ext. intros j l Hl%list_elem_of_lookup_2. simpl.
    rewrite !lookup_total_alt, (py_after_round_heap k) by (done || lia).
    rewrite decide_True by done. by destruct (Hlive l Hl) as [b ->].
Qed.

Lemma py_after_round_approved_all k st :
  after_round h ballots seats k st →
  deref (st_heap st) ballots ≫= approved_candidates =
  deref h ballots ≫= approved_candidates.
Proof.
  intros Hst.
  enough (∀ ls, deref (st_heap st) ls ≫= approved_candidates =
                deref h ls ≫= approved_candidates) as Hls by apply Hls.
  unfold deref. induction ls as [|l ls IH]; [done|].
  rewrite !fmap_cons, !bind_cons, IH.
  by rewrite (py_after_round_approved k st l Hst).
Qed.

(** No candidate wins twice. *)
Lemma py_after_round_NoDup k st :
  after_round h ballots seats k st → NoDup (st_winners st).
Proof.
  revert st. induction k as [|k IH]; intros st.
  - intros ->%py_after_round_0. apply NoDup_nil_2.
  - intros (stk & _ & Hstk & Hround)%py_after_round_S.
    apply py_election_round_inr in Hround
      as (scores & w & v & rest & votes & Hs & Hmc & _ & ->); simpl.
    apply py_most_common_head_key in Hmc.
    apply (py_elem_of_score_ballots _ _ _ _ _ Hs) in Hmc as [Hw _].
    apply NoDup_app. split_and!; [by eapply IH| |apply NoDup_singleton].
    by intros x Hx ->%list_elem_of_singleton.
Qed.

(** What round [i] (counting from 0) recorded, in terms of the loop
    variables it started from. *)
Lemma py_after_round_round k st i r :
  after_round h ballots seats k st → st_rounds st !! i = Some r →
  ∃ sti,
    after_round h ballots seats i sti ∧
    st_winners sti = take i (st_winners st) ∧
    st_winners st !! i = Some (winner r) ∧
    score_ballots (st_heap sti) ballots (st_winners sti) = Some (scores r) ∧
    sum_weights (st_heap sti) ballots = Some (weighted_votes r) ∧
    ∃ v rest, most_common (scores r) = (winner r, v) :: rest.
Proof.
  intros Hst Hr.
  destruct (py_after_round_lengths _ _ _ _ _ Hst) as (Hlw & Hlr & Hw).
  assert (i < k) as Hik by (rewrite <-Hlr; by eapply lookup_lt_Some).
  destruct (py_after_round_prefix h ballots seats (S i) k st)
    as (st1 & Hst1 & Hw1 & Hr1); [lia|done|].
  apply py_after_round_S in Hst1 as (sti & _ & Hsti & Hround).
  destruct (py_after_round_lengths _ _ _ _ _ Hsti) as (Hlwi & Hlri & _).
  apply py_election_round_inr in Hround
    as (scores & w & v & rest & votes & Hs & Hmc & Hv & ->).
  simpl in Hw1, Hr1.
  assert (r = mkRound w scores votes) as ->.
  { assert (take (S i) (st_rounds st) !! i = Some r) as Hr'
      by (rewrite lookup_take_lt by lia; done).
    rewrite <-Hr1, lookup_app_r, Hlri, Nat.sub_diag in Hr' by lia.
    by injection Hr' as <-. }
  exists sti. split_and!; [done| | |done|done|by exists v, rest].
  - apply (f_equal (take i)) in Hw1.
    rewrite take_app_length', take_take, Nat.min_l in Hw1 by lia. done.
  - rewrite <-Hw, list_lookup_fmap, Hr. done.
Qed.

Lemma py_approval_election_round h' res i r :
  approval_election h ballots seats = (h', inr res) →
  rounds res !! i = Some r →
  ∃ sti,
    after_round h ballots seats i sti ∧
    st_winners sti = take i (winners res) ∧
    winners res !! i = Some (winner r) ∧
    score_ballots (st_heap sti) ballots (st_winners sti) = Some (scores r) ∧
    sum_weights (st_heap sti) ballots = Some (weighted_votes r) ∧
    ∃ v rest, most_common (scores r) = (winner r, v) :: rest.
Proof.
  intros (st & Hst & _ & ->)%py_approval_election_returns Hr. simpl in *.
  by eapply py_after_round_round.
Qed.
End call.
End py_rounds.

(** ** Counting the winners a ballot approves *)

Lemma length_filter_elem_of_nil (l : list Candidate) :
  length (filter (λ c, c ∈ @nil Candidate) l) = 0.
Proof.
  induction l as [|c l IH]; [done|].
  rewrite filter_cons_False; [done|]. by intros ?%elem_of_nil.
Qed.

Lemma length_filter_elem_of_cons (w : Candidate) ws (l : list Candidate) :
  w ∉ ws →
  length (filter (λ c, c ∈ w :: ws) l) =
    length (filter (λ c, c = w) l) + length (filter (λ c, c ∈ ws) l).
Proof.
  intros Hw. induction l as [|c l IH]; [done|].
  rewrite !filter_cons.
  destruct (decide (c = w)) as [->|Hc].
  - rewrite decide_True by left. rewrite decide_False by done.
    simpl. by rewrite IH.
  - destruct (decide (c ∈ ws)) as [Hin|Hin].
    + rewrite decide_True by by right. simpl. rewrite IH. lia.
    + rewrite decide_False; [done|]. by intros [?|?]%elem_of_cons.
Qed.

(** [sum(1 for c in approved if c in winners)], winner by winner: no
    candidate is counted for two winners when no winner is repeated. *)
Lemma length_filter_entries_among ws (l : list Candidate) :
  NoDup ws → length (filter (λ c, c ∈ ws) l) = entries_among ws l.
Proof.
  unfold entries_among. induction 1 as [|w ws Hw _ IH].
  - apply length_filter_elem_of_nil.
  - rewrite length_filter_elem_of_cons by done. csimpl. by rewrite IH.
Qed.

Lemma length_filter_eq_NoDup (w : Candidate) (l : list Candidate) :
  NoDup l → length (filter (λ c, c = w) l) = if decide (w ∈ l) then 1 else 0.
Proof.
  induction 1 as [|c l Hc _ IH].
  - by rewrite decide_False by by intros ?%elem_of_nil.
  - rewrite filter_cons. destruct (decide (c = w)) as [->|Hne].
    + simpl. rewrite IH, decide_False by done.
      by rewrite decide_True by left.
    + rewrite IH. destruct (decide (w ∈ l)) as [Hin|Hin].
      * by rewrite decide_True by by right.
      * rewrite decide_False; [done|].
        intros [?|?]%elem_of_cons; [congruence|done].
Qed.

(** On an approval list without repetitions, entries and candidates are
    the same count. *)
Lemma entries_among_candidates ws (l : list Candidate) :
  NoDup l → entries_among ws l = candidates_among ws l.
Proof.
  intros Hl. unfold entries_among, candidates_among.
  induction ws as [|w ws IH]; [done|].
  csimpl. rewrite IH, filter_cons, length_filter_eq_NoDup by done.
  by destruct (decide (w ∈ l)).
Qed.

(** ** The rounds over Python's numbers: tie-break, weights, sums *)

Lemma exact_numbers_ordered : @Py.ordered Py.exact_numbers.
Proof.
  split_and!; simpl.
  - intros x. apply bool_decide_eq_false. apply Qcle_not_lt, Qcle_refl.
  - intros x y z Hxy%bool_decide_eq_true Hyz%bool_decide_eq_true.
    apply bool_decide_eq_true. by eapply Qclt_trans.
  - intros x y z Hxy%bool_decide_eq_true.
    destruct (Qclt_le_dec x z) as [Hxz|Hzx].
    + left. by apply bool_decide_eq_true.
    + right. apply bool_decide_eq_true. by eapply Qcle_lt_trans.
Qed.

Section py_claims.
Import Py.
Context `{!Numbers}.
Implicit Types (h : gmap loc Ballot) (st : state) (s : list (Candidate * num)).

Lemma py_counter_get_set s c v c' :
  counter_get (counter_set s c v) c' =
    if decide (c = c') then v else counter_get s c'.
Proof.
  induction s as [|[c0 v0] s IH]; simpl.
  - by destruct (decide (c = c')).
  - destruct (decide (c0 = c)) as [->|Hne]; simpl.
    + by destruct (decide (c = c')).
    + destruct (decide (c0 = c')) as [->|Hne'].
      * by rewrite decide_False by done.
      * done.
Qed.

Lemma py_accumulate_None ws : accumulate None ws = None.
Proof. unfold accumulate. by induction ws. Qed.

(** What the scoring pass leaves under a key that has not won: the
    value it found there, with the weights of the key's entries added
    one by one. *)
Lemma py_tally_get ws s es s' c :
  tally ws (Some s) es = Some s' → c ∉ ws →
  accumulate (Some (counter_get s c)) (weights_for c es) =
    Some (counter_get s' c).
Proof.
  intros Hs Hc. revert s Hs.
  induction es as [|[c0 w] es IH]; intros s Hs.
  - by injection Hs as ->.
  - change (tally ws (Some s) ((c0, w) :: es))
      with (tally ws (if decide (c0 ∈ ws) then Some s
                      else counter_add s c0 w) es) in Hs.
    unfold weights_for. rewrite filter_cons. simpl.
    destruct (decide (c0 ∈ ws)) as [Hin|Hin].
    + rewrite decide_False by congruence. by apply IH.
    + unfold counter_add in Hs.
      destruct (num_add (counter_get s c0) w) as [v|] eqn:Hadd; simpl in Hs;
        [|by rewrite py_tally_None in Hs].
      apply IH in Hs. rewrite py_counter_get_set in Hs.
      destruct (decide (c0 = c)) as [->|Hne]; [|done].
      csimpl. unfold accumulate. cbn [foldl]. simpl. by rewrite Hadd.
Qed.

(** C2: in every round a returning call records, the winner is the key
    of the score map that comes first, in insertion order, among the
    keys whose score no other score exceeds: every score inserted before
    the winner's is smaller, as Python's [<] compares them, and none
    inserted after it is larger.  The insertion order is the order in
    which the candidates that have not won yet are first met when going
    through the ballots and, within a ballot, through its approval list.
    This holds for the scores Python computes, whatever they round to.
    In particular one fresh ballot approving [a] then [b], with one
    seat, elects [a]: both scores are the [int] 1. *)
Theorem py_tie_break_first_inserted :
  (∀ h bs seats h' res i r,
     ordered →
     approval_election h bs seats = (h', inr res) →
     rounds res !! i = Some r →
     winners res !! i = Some (winner r) ∧
     first_highest (scores r) (winner r) ∧
     (scores r).*1 =
       first_seen (filter (λ c, c ∉ take i (winners res))
                          (deref h bs ≫= approved_candidates))) ∧
  (∀ l a b,
     ordered →
     a ≠ b →
     num_add int_0 int_1 = Some int_1 →
     num_sum [int_1] = Some int_1 →
     approval_election {[l := mkBallot [a; b] int_1]} [l] 1 =
       ({[l := mkBallot [a; b] (one_over 2)]},
        inr (mkResult [a] [mkRound a [(a, int_1); (b, int_1)] int_1] [l]))).
Proof.
  split.
  - intros h bs seats h' res i r Hord Hres Hr.
    destruct (py_approval_election_round _ _ _ _ _ _ _ Hres Hr)
      as (sti & Hsti & Hws & Hw & Hs & _ & v & rest & Hmc).
    split_and!; [done| |].
    + apply py_most_common_head in Hmc as (pre & post & ? & ? & ?); [|done].
      by exists pre, v, post.
    + rewrite (py_score_ballots_keys _ _ _ _ Hs), Hws.
      by rewrite (py_after_round_approved_all h bs seats i sti Hsti).
  - intros l a b (Hirr & _) Hab Hadd Hsum.
    unfold approval_election. rewrite py_election_loop_eq.
    rewrite decide_True by (simpl; lia).
    assert (election_round [l] (init_state {[l := mkBallot [a; b] int_1]}) =
            inr (mkState {[l := mkBallot [a; b] (one_over 2)]} [a]
                   [mkRound a [(a, int_1); (b, int_1)] int_1])) as ->.
    { assert (({[l := mkBallot [a; b] int_1]} : gmap loc Ballot) !!! l =
              mkBallot [a; b] int_1) as Hl
        by (rewrite lookup_total_singleton; by rewrite decide_True).
      unfold election_round, score_ballots, sum_weights, reweight_ballots,
        init_state.
      cbn [foldl st_heap st_winners st_rounds]. csimpl. rewrite !Hl.
      unfold score_ballot. cbn [approved_candidates weight foldl].
      unfold score_entry. cbn [mbind option_bind].
      rewrite !(decide_False (P := _ ∈ [])) by by intros ?%elem_of_nil.
      unfold counter_add. cbn [counter_get]. rewrite Hadd.
      cbn [mbind option_bind counter_set counter_get].
      rewrite (decide_False (P := b ∈ [])) by by intros ?%elem_of_nil.
      rewrite !(decide_False (P := a = b)) by done.
      rewrite Hadd. cbn [mbind option_bind].
      rewrite !(decide_False (P := a = b)) by done.
      unfold most_common. simpl.
      rewrite Hirr, Hsum. do 2 f_equal.
      unfold approved_winners. cbn [approved_candidates].
      rewrite filter_cons_True by left.
      rewrite filter_cons_False by (intros ?%list_elem_of_singleton; done).
      rewrite filter_nil. cbn [length].
      by rewrite alter_singleton_eq. }
    rewrite py_election_loop_eq. by rewrite decide_False by (simpl; lia).
Qed.

(** C3, as the code has it: after the [k]-th round ([k >= 1]) every
    listed ballot has the weight [1 / (1 + m)], where [m] counts the
    entries of its approval list that name one of the [k] winners
    elected so far, a candidate listed twice counting twice.  When the
    list names no candidate twice, [m] is the number of its candidates
    that are among the winners; a ballot that approves no winner has the
    weight [1 / 1], the [float] 1.0. *)
Theorem py_reweight_law h bs seats k st l b :
  after_round h bs seats k st →
  1 ≤ k →
  l ∈ bs →
  h !! l = Some b →
  length (st_winners st) = k ∧
  st_heap st !! l =
    Some (mkBallot
            (approved_candidates b)
            (one_over (Pos.of_succ_nat
                         (entries_among (st_winners st)
                                        (approved_candidates b))))) ∧
  (NoDup (approved_candidates b) →
   weight (st_heap st !!! l) =
     one_over (Pos.of_succ_nat
                 (candidates_among (st_winners st) (approved_candidates b)))) ∧
  ((∀ c, c ∈ approved_candidates b → c ∉ st_winners st) →
   weight (st_heap st !!! l) = one_over 1).
Proof.
  intros Hst Hk Hl Hb.
  assert (st_heap st !! l =
          Some (mkBallot
                  (approved_candidates b)
                  (one_over (Pos.of_succ_nat
                               (entries_among (st_winners st)
                                              (approved_candidates b))))))
    as Hheap.
  { rewrite (py_after_round_heap h bs seats k st l Hst Hk).
    rewrite decide_True, Hb by done. simpl.
    unfold reweight_ballot, set_weight, approved_winners.
    rewrite length_filter_entries_among; [done|].
    by eapply py_after_round_NoDup. }
  split_and!; [by apply (py_after_round_lengths _ _ _ _ _ Hst)|done| |].
  - intros Hnd. rewrite lookup_total_alt, Hheap. simpl.
    by rewrite entries_among_candidates.
  - intros Hnone. rewrite lookup_total_alt, Hheap. simpl.
    rewrite <-length_filter_entries_among by by eapply py_after_round_NoDup.
    assert (filter (λ c, c ∈ st_winners st) (approved_candidates b) = [])
      as ->; [|done].
    revert Hnone. generalize (approved_candidates b) as cs.
    induction cs as [|c cs IH]; intros Hnone; [done|].
    rewrite filter_cons_False by (apply Hnone; left).
    apply IH. intros c' Hc'. apply Hnone. by right.
Qed.

(** C8: the [weighted_votes] of recorded round [i] is what [sum] makes
    of the weights of the listed ballots, in the order of the list, as
    round [i] found them, before its own reweighting pass: the weights
    the ballots came with for the first round, and the weights the
    previous round's reweighting pass wrote, [1 / (1 + m)] for the
    winners elected before round [i], for every later one. *)
Theorem py_weighted_votes_sum h bs seats h' res i r :
  refs_live h bs →
  approval_election h bs seats = (h', inr res) →
  rounds res !! i = Some r →
  ∃ sti,
    after_round h bs seats i sti ∧
    st_winners sti = take i (winners res) ∧
    num_sum (weight <$> deref (st_heap sti) bs) = Some (weighted_votes r) ∧
    deref (st_heap sti) bs =
      if decide (i = 0) then deref h bs
      else reweight_ballot (take i (winners res)) <$> deref h bs.
Proof.
  intros Hlive Hres Hr.
  destruct (py_approval_election_round _ _ _ _ _ _ _ Hres Hr)
    as (sti & Hsti & Hws & _ & _ & Hv & _).
  exists sti. split_and!; [done..| |].
  - rewrite <-Hv. unfold sum_weights, deref. by rewrite <-list_fmap_compose.
  - rewrite <-Hws. by apply (py_after_round_deref _ _ seats).
Qed.

(** X9: the score a recorded round holds for a candidate that has not
    won yet is what repeated [+=] makes of it: starting from the [int]
    0, the weights of the approval entries naming the candidate, each
    the weight its ballot had when the round started, added one by one
    in the order of the scoring pass. *)
Theorem py_score_accumulated h bs seats h' res i r c :
  approval_election h bs seats = (h', inr res) →
  rounds res !! i = Some r →
  c ∉ take i (winners res) →
  ∃ sti,
    after_round h bs seats i sti ∧
    accumulate (Some int_0)
               (weights_for c (entries (deref (st_heap sti) bs))) =
      Some (counter_get (scores r) c).
Proof.
  intros Hres Hr Hc.
  destruct (py_approval_election_round _ _ _ _ _ _ _ Hres Hr)
    as (sti & Hsti & Hws & _ & Hs & _).
  exists sti. split; [done|].
  rewrite py_score_ballots_tally in Hs.
  apply (py_tally_get _ _ _ _ c) in Hs; [done|by rewrite Hws].
Qed.
End py_claims.

(** ** The examples, run on exact numbers *)

Section py_examples.
Import Py.
#[local] Existing Instance exact_numbers.

Lemma py_tie_break_first_inserted_witness :
  (winners (py_result_of (py_run spav_example 2)) !! 0 =
     Some (winner (py_round_of (py_result_of (py_run spav_example 2)) 0)) ∧
   first_highest
     (scores (py_round_of (py_result_of (py_run spav_example 2)) 0))
     (winner (py_round_of (py_result_of (py_run spav_example 2)) 0)) ∧
   (scores (py_round_of (py_result_of (py_run spav_example 2)) 0)).*1 =
     first_seen
       (filter (λ c, c ∉ take 0 (winners (py_result_of (py_run spav_example 2))))
               (deref (py_fresh_ballots spav_example).1
                      (py_fresh_ballots spav_example).2
                  ≫= approved_candidates))) ∧
  approval_election {[1%positive := mkBallot [A; B] int_1]} [1%positive] 1 =
    ({[1%positive := mkBallot [A; B] (one_over 2)]},
     inr (mkResult [A] [mkRound A [(A, int_1); (B, int_1)] int_1]
                   [1%positive])).
Proof.
  split.
  - apply (proj1 py_tie_break_first_inserted
             (py_fresh_ballots spav_example).1
             (py_fresh_ballots spav_example).2 2%Z
             (py_run spav_example 2).1 (py_result_of (py_run spav_example 2)) 0
             (py_round_of (py_result_of (py_run spav_example 2)) 0)).
    + exact exact_numbers_ordered.
    + vm_compute. reflexivity.
    + vm_compute. reflexivity.
  - apply (proj2 py_tie_break_first_inserted 1%positive A B).
    + exact exact_numbers_ordered.
    + discriminate.
    + vm_compute. reflexivity.
    + vm_compute. reflexivity.
Defined.

Lemma py_reweight_law_witness :
  length (st_winners
            (py_state_of
               (run_rounds 1 (py_fresh_ballots spav_example).2
                  (init_state (py_fresh_ballots spav_example).1)))) = 1 ∧
  st_heap
    (py_state_of
       (run_rounds 1 (py_fresh_ballots spav_example).2
          (init_state (py_fresh_ballots spav_example).1)))
    !! 4%positive =
    Some (mkBallot
            (approved_candidates (mkBallot [B] int_1))
            (one_over
               (Pos.of_succ_nat
                  (entries_among
                     (st_winners
                        (py_state_of
                           (run_rounds 1 (py_fresh_ballots spav_example).2
                              (init_state
                                 (py_fresh_ballots spav_example).1))))
                     (approved_candidates (mkBallot [B] int_1)))))) ∧
  weight
    (st_heap
       (py_state_of
          (run_rounds 1 (py_fresh_ballots spav_example).2
             (init_state (py_fresh_ballots spav_example).1)))
       !!! 4%positive) =
    one_over
      (Pos.of_succ_nat
         (candidates_among
            (st_winners
               (py_state_of
                  (run_rounds 1 (py_fresh_ballots spav_example).2
                     (init_state (py_fresh_ballots spav_example).1))))
            (approved_candidates (mkBallot [B] int_1)))) ∧
  weight
    (st_heap
       (py_state_of
          (run_rounds 1 (py_fresh_ballots spav_example).2
             (init_state (py_fresh_ballots spav_example).1)))
       !!! 4%positive) = one_over 1.
Proof.
  destruct (py_reweight_law
              (py_fresh_ballots spav_example).1
              (py_fresh_ballots spav_example).2 2 1
              (py_state_of
                 (run_rounds 1 (py_fresh_ballots spav_example).2
                    (init_state (py_fresh_ballots spav_example).1)))
              4%positive (mkBallot [B] int_1))
    as (Hlen & Hheap & Hcand & Hnone).
  - split; [vm_compute; lia|vm_compute; reflexivity].
  - lia.
  - vm_compute. do 3 right. left.
  - vm_compute. reflexivity.
  - split_and!; [exact Hlen|exact Hheap| |].
    + apply Hcand. apply NoDup_singleton.
    + apply Hnone. intros c Hc. apply list_elem_of_singleton in Hc as ->.
      vm_compute.
      intros [Heq|Hin]%elem_of_cons; [discriminate Heq|].
      by apply elem_of_nil in Hin.
Defined.

(** C3 as the documentation states it fails on a ballot that lists a
    candidate twice: the fresh ballot [A, A] approves one candidate, A,
    and A is the one winner of the first round, which gives
    [1 / (1 + 1)]; the reweighting pass counts two entries and writes
    [1 / (1 + 2)]. *)
Lemma py_reweight_counts_entries :
  deref (py_fresh_ballots [[A; A]]).1 (py_fresh_ballots [[A; A]]).2 =
    [mkBallot [A; A] int_1] ∧
  (py_run [[A; A]] 1).2 = inr (py_result_of (py_run [[A; A]] 1)) ∧
  winners (py_result_of (py_run [[A; A]] 1)) = [A] ∧
  candidates_among (winners (py_result_of (py_run [[A; A]] 1))) [A; A] = 1 ∧
  deref (py_run [[A; A]] 1).1 (py_fresh_ballots [[A; A]]).2 =
    [mkBallot [A; A] (one_over 3)] ∧
  one_over 3 ≠ one_over (Pos.of_succ_nat 1).
Proof. split_and!; by vm_compute. Qed.

Lemma py_weighted_votes_sum_witness :
  ∃ sti,
    after_round (py_fresh_ballots spav_example).1
                (py_fresh_ballots spav_example).2 2 1 sti ∧
    st_winners sti = take 1 (winners (py_result_of (py_run spav_example 2))) ∧
    num_sum (weight <$> deref (st_heap sti) (py_fresh_ballots spav_example).2) =
      Some (weighted_votes
              (py_round_of (py_result_of (py_run spav_example 2)) 1)) ∧
    deref (st_heap sti) (py_fresh_ballots spav_example).2 =
      if decide (1 = 0) then
        deref (py_fresh_ballots spav_example).1
              (py_fresh_ballots spav_example).2
      else
        reweight_ballot
          (take 1 (winners (py_result_of (py_run spav_example 2))))
          <$> deref (py_fresh_ballots spav_example).1
                    (py_fresh_ballots spav_example).2.
Proof.
  apply (py_weighted_votes_sum
           (py_fresh_ballots spav_example).1
           (py_fresh_ballots spav_example).2 2
           (py_run spav_example 2).1 (py_result_of (py_run spav_example 2)) 1
           (py_round_of (py_result_of (py_run spav_example 2)) 1)).
  - intros l Hl. each_elem Hl ltac:(by eexists).
  - vm_compute. reflexivity.
  - vm_compute. reflexivity.
Defined.

Lemma py_score_accumulated_witness :
  ∃ sti,
    after_round (py_fresh_ballots spav_example).1
                (py_fresh_ballots spav_example).2 2 1 sti ∧
    accumulate (Some int_0)
      (weights_for B
         (entries (deref (st_heap sti) (py_fresh_ballots spav_example).2))) =
      Some (counter_get
              (scores (py_round_of (py_result_of (py_run spav_example 2)) 1))
              B).
Proof.
  apply (py_score_accumulated
           (py_fresh_ballots spav_example).1
           (py_fresh_ballots spav_example).2 2
           (py_run spav_example 2).1 (py_result_of (py_run spav_example 2)) 1
           (py_round_of (py_result_of (py_run spav_example 2)) 1) B).
  - vm_compute. reflexivity.
  - vm_compute. reflexivity.
  - vm_compute.
    intros [Heq|Hin]%elem_of_cons; [discriminate Heq|].
    by apply elem_of_nil in Hin.
Defined.
End py_examples.
